(** * Paste handling and hierarchical term filtering

    A shallow embedding of the paste handler ([pasteHandler],
    [filterInlineHTML], [htmlToBlocks] and the style helpers of the same
    file) and of the term-tree filter of the hierarchical term selector
    ([getFilterMatcher]).

    Strings are sequences of code units; one [ascii] stands for one code
    unit in the range 0..255.  The browser (HTML parser and serializer,
    CSS declaration blocks) and the modules imported by the paste handler
    are parameters of the development. *)

From Stdlib Require Import Ascii.
From stdpp Require Import base option list strings gmap.

Local Open Scope Z_scope.
Set Warnings "-register-all".

(** ** JavaScript string primitives *)

Module JsString.

Fixpoint strlen (s : string) : nat :=
  match s with
  | EmptyString => O
  | String _ r => S (strlen r)
  end.

(** [strip_prefix p s] is the rest of [s] after its prefix [p]. *)
Fixpoint strip_prefix (p s : string) : option string :=
  match p, s with
  | EmptyString, _ => Some s
  | String a p', String b s' =>
      if Ascii.eqb a b then strip_prefix p' s' else None
  | String _ _, EmptyString => None
  end.

(** [s.indexOf(x)]: the first position at which [x] occurs, or -1. *)
Fixpoint indexOf (s x : string) : Z :=
  match strip_prefix x s with
  | Some _ => 0
  | None =>
      match s with
      | EmptyString => -1
      | String _ r =>
          let i := indexOf r x in
          if Z.eqb i (-1) then -1 else Z.succ i
      end
  end.

(** Truthiness of a string: only the empty string is falsy. *)
Definition truthy (s : string) : bool :=
  match s with EmptyString => false | _ => true end.

(** White space and line terminators among the code units below 256:
    TAB, LF, VT, FF, CR, SPACE and NO-BREAK SPACE. *)
Definition is_space (c : ascii) : bool :=
  let n := nat_of_ascii c in
  (Nat.leb 9 n && Nat.leb n 13) || Nat.eqb n 32 || Nat.eqb n 160.

Definition is_line_terminator (c : ascii) : bool :=
  let n := nat_of_ascii c in Nat.eqb n 10 || Nat.eqb n 13.

Fixpoint trimStart (s : string) : string :=
  match s with
  | String c r => if is_space c then trimStart r else s
  | EmptyString => EmptyString
  end.

Fixpoint trimEnd (s : string) : string :=
  match s with
  | EmptyString => EmptyString
  | String c r =>
      match trimEnd r with
      | EmptyString => if is_space c then EmptyString else String c EmptyString
      | r' => String c r'
      end
  end.

Definition trim (s : string) : string := trimEnd (trimStart s).

(** [s.split(sep)] for a non-empty separator. *)
Fixpoint split_go (fuel : nat) (sep : string) (cur : string) (s : string)
  : list string :=
  match fuel with
  | O => [cur +:+ s]
  | S fuel' =>
      match s with
      | EmptyString => [cur]
      | String c r =>
          match strip_prefix sep s with
          | Some rest => cur :: split_go fuel' sep EmptyString rest
          | None => split_go fuel' sep (cur +:+ String c EmptyString) r
          end
      end
  end.

Definition split (s sep : string) : list string :=
  split_go (S (strlen s)) sep EmptyString s.

(** [a.join(sep)] on an array of strings. *)
Fixpoint join (sep : string) (l : list string) : string :=
  match l with
  | [] => EmptyString
  | [x] => x
  | x :: r => x +:+ sep +:+ join sep r
  end.

(** [s.replace(/c/g, by)] for a single character [c]. *)
Fixpoint replace_char (c : ascii) (by_ : string) (s : string) : string :=
  match s with
  | EmptyString => EmptyString
  | String a r =>
      (if Ascii.eqb a c then by_ else String a EmptyString)
        +:+ replace_char c by_ r
  end.

Fixpoint take (n : nat) (s : string) : string :=
  match n, s with
  | S n', String c r => String c (take n' r)
  | _, _ => EmptyString
  end.

(** [x] occurs in [s]; [s] begins with [x]. *)
Definition occursIn (x s : string) : Prop := ∃ pre post, s = pre +:+ x +:+ post.
Definition beginsWith (x s : string) : Prop := ∃ post, s = x +:+ post.

End JsString.

(** ** The regular expressions of the file

    A backtracking matcher for the fragment of the regular-expression
    language that the file uses: literals, greedy and lazy repetition of a
    character class, optional groups, sequencing and the two anchors. *)

Module Regex.
Import JsString.

Inductive cclass :=
| Space                (* \s *)
| NotChar (c : ascii)  (* [^c] *)
| Dot.                 (* . *)

Inductive regex :=
| Lit (s : string)
| Star (c : cclass)
| Plus (c : cclass)
| LazyStar (c : cclass)
| Opt (r : regex)
| Seq (r1 r2 : regex)
| Bos
| Eos.

Definition in_class (c : cclass) (a : ascii) : bool :=
  match c with
  | Space => is_space a
  | NotChar x => negb (Ascii.eqb a x)
  | Dot => negb (is_line_terminator a)
  end.

(** Canonicalisation under the [i] flag: the patterns are ASCII, and a
    code unit above 127 never canonicalises to an ASCII one. *)
Definition upper (a : ascii) : ascii :=
  let n := nat_of_ascii a in
  if Nat.leb 97 n && Nat.leb n 122 then ascii_of_nat (n - 32) else a.

Definition char_eq (ci : bool) (a b : ascii) : bool :=
  if ci then Ascii.eqb (upper a) (upper b) else Ascii.eqb a b.

Fixpoint lit (ci : bool) (p s : string) : option string :=
  match p, s with
  | EmptyString, _ => Some s
  | String a p', String b s' => if char_eq ci a b then lit ci p' s' else None
  | String _ _, EmptyString => None
  end.

(** A position in the subject: the index and what is left of it. *)
Definition cursor : Type := nat * string.

Section Matcher.
Context {R : Type}.

Fixpoint star (c : cclass) (pos : nat) (s : string)
              (k : cursor → option R) : option R :=
  match s with
  | String a r =>
      if in_class c a then
        match star c (S pos) r k with
        | Some x => Some x
        | None => k (pos, s)
        end
      else k (pos, s)
  | EmptyString => k (pos, s)
  end.

Fixpoint lazy_star (c : cclass) (pos : nat) (s : string)
                   (k : cursor → option R) : option R :=
  match k (pos, s) with
  | Some x => Some x
  | None =>
      match s with
      | String a r => if in_class c a then lazy_star c (S pos) r k else None
      | EmptyString => None
      end
  end.

Fixpoint run (ci : bool) (r : regex) (cur : cursor)
             (k : cursor → option R) : option R :=
  match r with
  | Lit p =>
      match lit ci p cur.2 with
      | Some rest => k ((cur.1 + strlen p)%nat, rest)
      | None => None
      end
  | Star c => star c cur.1 cur.2 k
  | Plus c =>
      match cur.2 with
      | String a rest => if in_class c a then star c (S cur.1) rest k else None
      | EmptyString => None
      end
  | LazyStar c => lazy_star c cur.1 cur.2 k
  | Opt r' =>
      match run ci r' cur k with
      | Some x => Some x
      | None => k cur
      end
  | Seq r1 r2 => run ci r1 cur (λ cur', run ci r2 cur' k)
  | Bos => if Nat.eqb cur.1 0 then k cur else None
  | Eos => match cur.2 with EmptyString => k cur | _ => None end
  end.
End Matcher.

(** A match attempt at one position: where the match ends. *)
Definition match_at (ci : bool) (r : regex) (cur : cursor) : option cursor :=
  run ci r cur Some.

(** [s.replace(r, f)] with the [g] flag: every match, left to right, is
    replaced by [f] of the matched text. *)
Fixpoint replace_all_go (fuel : nat) (ci : bool) (r : regex)
    (f : string → string) (pos : nat) (s : string) : string :=
  match fuel with
  | O => s
  | S fuel' =>
      match match_at ci r (pos, s) with
      | Some (e, rest) =>
          if Nat.eqb e pos then
            match s with
            | String c s' =>
                f EmptyString +:+ String c (replace_all_go fuel' ci r f (S pos) s')
            | EmptyString => f EmptyString
            end
          else f (take (e - pos) s) +:+ replace_all_go fuel' ci r f e rest
      | None =>
          match s with
          | String c s' => String c (replace_all_go fuel' ci r f (S pos) s')
          | EmptyString => EmptyString
          end
      end
  end.

Definition replace_all (ci : bool) (r : regex) (f : string → string)
    (s : string) : string :=
  replace_all_go (S (strlen s)) ci r f O s.

(** [s.replace(r, by)] without the [g] flag: the leftmost match only. *)
Fixpoint replace_first_go (ci : bool) (r : regex) (by_ : string)
    (pos : nat) (s : string) : option string :=
  match match_at ci r (pos, s) with
  | Some (_, rest) => Some (by_ +:+ rest)
  | None =>
      match s with
      | String c s' => String c <$> replace_first_go ci r by_ (S pos) s'
      | EmptyString => None
      end
  end.

Definition replace_first (ci : bool) (r : regex) (by_ : string)
    (s : string) : string :=
  default s (replace_first_go ci r by_ O s).

(** The concatenation of a list of patterns. *)
Fixpoint cat (l : list regex) : regex :=
  match l with
  | [] => Lit EmptyString
  | [r] => r
  | r :: l' => Seq r (cat l')
  end.

End Regex.

Import JsString Regex.

(** ** Outcomes: a call returns a value or throws *)

(** [Diverged] stands for a recursion that ran out of the fuel that its
    model is given. *)
Inductive jsError :=
| TypeError (msg : string)
| Diverged.

Inductive outcome (A : Type) :=
| Ok (a : A)
| Throw (e : jsError).
Arguments Ok {A} a.
Arguments Throw {A} e.

Global Instance outcome_ret : MRet outcome := λ A a, Ok a.
Global Instance outcome_bind : MBind outcome := λ A B f m,
  match m with
  | Ok a => f a
  | Throw e => Throw e
  end.
Global Instance outcome_fmap : FMap outcome := λ A B f m,
  match m with
  | Ok a => Ok (f a)
  | Throw e => Throw e
  end.

Definition returns {A} (m : outcome A) : Prop := ∃ a, m = Ok a.

(** [mapM f l] runs [f] over [l] left to right, as [Array.prototype.map]
    does with a callback that may throw. *)
Fixpoint mapM {A B} (f : A → outcome B) (l : list A) : outcome (list B) :=
  match l with
  | [] => Ok []
  | x :: r => y ← f x; ys ← mapM f r; Ok (y :: ys)
  end.

(** ** Wrapper markup stripped before anything else *)

(** The patterns are written with blanks between their parts. *)

Definition metaTag : regex :=          (* <meta [^>]+ >   flag g *)
  cat [Lit "<meta"; Plus (NotChar ">"); Lit ">"].

Definition windowsStart : regex :=
  (* ^ \s* <html [^>]* > \s* <body [^>]* >
     (?: \s* <!-- \s* StartFragment \s* --> )?   flag i *)
  cat [Bos; Star Space; Lit "<html"; Star (NotChar ">"); Lit ">";
       Star Space; Lit "<body"; Star (NotChar ">"); Lit ">";
       Opt (cat [Star Space; Lit "<!--"; Star Space; Lit "StartFragment";
                 Star Space; Lit "-->"])].

Definition windowsEnd : regex :=
  (* (?: <!-- \s* EndFragment \s* --> \s* )? </body> \s* </html> \s* $
     flag i *)
  cat [Opt (cat [Lit "<!--"; Star Space; Lit "EndFragment"; Star Space;
                 Lit "-->"; Star Space]);
       Lit "</body>"; Star Space; Lit "</html>"; Star Space; Eos].

Definition parenthesised : regex :=    (* \( .*? \)   flag g *)
  cat [Lit "("; LazyStar Dot; Lit ")"].

(** The first three statements of [pasteHandler]. *)
Definition stripWrappers (HTML : string) : string :=
  let HTML := replace_all false metaTag (λ _, "") HTML in
  let HTML := replace_first true windowsStart "" HTML in
  replace_first true windowsEnd "" HTML.

(** ** Objects as ordered property lists

    The style helpers build small objects keyed by property name.  An
    object lists its own properties in creation order; [Object.entries]
    enumerates array-index keys first, in ascending order, then the other
    keys in creation order. *)

Module JsObject.

Definition obj (V : Type) : Type := list (string * V).

Fixpoint set {V} (k : string) (v : V) (o : obj V) : obj V :=
  match o with
  | [] => [(k, v)]
  | (k', v') :: r =>
      if String.eqb k' k then (k', v) :: r else (k', v') :: set k v r
  end.

Definition digit (c : ascii) : option N :=
  let n := N_of_ascii c in
  if ((48 <=? n) && (n <=? 57))%N then Some (n - 48)%N else None.

Fixpoint digits (s : string) (acc : N) : option N :=
  match s with
  | EmptyString => Some acc
  | String c r => d ← digit c; digits r (acc * 10 + d)%N
  end.

(** A canonical numeric string below 2^32 - 1. *)
Definition array_index (k : string) : option N :=
  match k with
  | EmptyString => None
  | String c r =>
      if Ascii.eqb c "0" && truthy r then None
      else n ← digits k 0%N; if (n <=? 4294967294)%N then Some n else None
  end.

Fixpoint insert_sorted {V} (n : N) (e : string * V)
    (l : list (N * (string * V))) : list (N * (string * V)) :=
  match l with
  | [] => [(n, e)]
  | (m, e') :: r =>
      if (n <? m)%N then (n, e) :: l else (m, e') :: insert_sorted n e r
  end.

Definition indexed {V} (o : obj V) : list (N * (string * V)) :=
  fold_right (λ e acc,
    match array_index e.1 with
    | Some n => insert_sorted n e acc
    | None => acc
    end) [] o.

Definition entries {V} (o : obj V) : list (string * V) :=
  (snd <$> indexed o)
    ++ List.filter (λ e, negb (bool_decide (is_Some (array_index e.1)))) o.

Definition fromEntries {V} (l : list (string * V)) : obj V :=
  fold_left (λ o e, set e.1 e.2 o) l [].

(** [{ ...a, ...b }] *)
Definition spread {V} (a b : obj V) : obj V :=
  fold_left (λ o e, set e.1 e.2 o) (entries b) (fromEntries (entries a)).

End JsObject.

(** ** Style declarations *)

(** A value of a style entry: a string, or the empty array that the
    destructuring default [values = []] puts in its place. *)
Inductive styleValue :=
| SStr (s : string)
| SEmptyArray.

Definition styleEntry : Type := string * list styleValue.

Definition stylesToSkip : list string :=
  ["box-sizing"; "background-color"; "font-family"; "border-radius"].

Definition defaultStyles : string :=
  "color: rgb(40, 48, 61); font-family: -apple-system, system-ui, 'Segoe UI', Roboto, Oxygen-Sans, Ubuntu, Cantarell, 'Helvetica Neue', sans-serif; font-size: 20px; font-style: normal; font-variant-ligatures: normal; font-variant-caps: normal; font-weight: 400; letter-spacing: normal; orphans: 2; text-align: start; text-indent: 0px; text-transform: none; white-space: pre-wrap; widows: 2; word-spacing: 0px; -webkit-text-stroke-width: 0px; background-color: rgb(209, 228, 221); text-decoration-style: initial; text-decoration-color: initial; display: inline !important; float: none;".

(** One declaration of [getStylesEntries]: the callback of its [map]. *)
Definition getStylesEntry (styles : string) : outcome styleEntry :=
  let parts := split (trim styles) ":" in
  let key := default EmptyString (head parts) in
  let values := from_option SStr SEmptyArray (parts !! 1%nat) in
  if String.eqb key "color" then Ok (key, [values])
  else
    match values with
    | SStr v => Ok (key, (λ w, SStr (trim w)) <$> split v ", ")
    | SEmptyArray => Throw (TypeError "values.split is not a function")
    end.

Definition getStylesEntries (stylesString : string) : outcome (list styleEntry) :=
  let stylesArr :=
    List.filter truthy
      (split (replace_all false parenthesised (replace_char " " "_") stylesString)
             ";") in
  mapM getStylesEntry stylesArr.

(** [SameValueZero] on style values: an array equals no other value. *)
Definition sameValue (a b : styleValue) : bool :=
  match a, b with
  | SStr x, SStr y => String.eqb x y
  | _, _ => false
  end.

(** lodash [difference]. *)
Definition difference (values excluded : list styleValue) : list styleValue :=
  List.filter (λ v, negb (existsb (sameValue v) excluded)) values.

Definition getNonDefaultStyles (defaultStylesEntries stylesEntries : list styleEntry)
  : JsObject.obj (list styleValue) :=
  fold_left (λ acc '(key, values),
    let defaultValues :=
      match List.find (λ e, String.eqb e.1 key) defaultStylesEntries with
      | Some (_, dv) => dv
      | None => []
      end in
    let diff := difference values defaultValues in
    let nonDefaultStyles :=
      if (0 <? length diff)%nat then [(key, diff)] else [] in
    JsObject.spread acc nonDefaultStyles) stylesEntries [].

Definition styleValueToString (v : styleValue) : string :=
  match v with
  | SStr s => s
  | SEmptyArray => EmptyString
  end.

Definition fromObjToString (o : JsObject.obj (list styleValue)) : string :=
  join "; " ((λ pair, pair.1 +:+ ":" +:+ join "," (styleValueToString <$> pair.2))
               <$> JsObject.entries o).

(** The string that [removeDefaultStyles] assigns to [element.style]. *)
Definition nonDefaultStylesOf (elementStyles : string) : outcome string :=
  defaultStylesEntries ← getStylesEntries defaultStyles;
  stylesEntries ← getStylesEntries elementStyles;
  let diff := getNonDefaultStyles defaultStylesEntries stylesEntries in
  let withoutUnimportantProps :=
    JsObject.fromEntries
      (List.filter (λ e, negb (existsb (String.eqb e.1) stylesToSkip))
                   (JsObject.entries diff)) in
  Ok (replace_all false parenthesised (replace_char "_" "")
        (fromObjToString withoutUnimportantProps)).

(** ** The document tree *)

Inductive node :=
| Text (data : string)
| Comment (data : string)
| Element (tag : string) (attrs : list (string * string)) (childNodes : list node).

Module Dom.

Definition isElement (n : node) : bool :=
  match n with Element _ _ _ => true | _ => false end.

(** [head.children]: the element children, in document order. *)
Definition children (kids : list node) : list node := List.filter isElement kids.

Definition childNodesOf (n : node) : list node :=
  match n with Element _ _ kids => kids | _ => [] end.

Definition attributesOf (n : node) : list (string * string) :=
  match n with Element _ a _ => a | _ => [] end.

Definition withChildNodes (n : node) (kids : list node) : node :=
  match n with Element t a _ => Element t a kids | _ => n end.

Definition getAttribute (name : string) (a : list (string * string)) : option string :=
  snd <$> List.find (λ e, String.eqb e.1 name) a.

Fixpoint setAttribute (name value : string) (a : list (string * string))
  : list (string * string) :=
  match a with
  | [] => [(name, value)]
  | (k, v) :: r =>
      if String.eqb k name then (k, value) :: r
      else (k, v) :: setAttribute name value r
  end.

(** [splice i repl kids] puts the nodes [repl] in the place of the
    [i]-th element child of a node whose child nodes are [kids]. *)
Fixpoint splice (i : nat) (repl : list node) (kids : list node) : list node :=
  match kids with
  | [] => []
  | n :: r =>
      if isElement n then
        match i with
        | O => repl ++ r
        | S i' => n :: splice i' repl r
        end
      else n :: splice i repl r
  end.

Fixpoint node_size (n : node) : nat :=
  match n with
  | Element _ _ kids => S (list_sum (node_size <$> kids))
  | _ => 1
  end.

Definition forest_size (kids : list node) : nat := list_sum (node_size <$> kids).

(** The child nodes from the [i]-th element child on. *)
Fixpoint fromElement (i : nat) (kids : list node) : list node :=
  match kids with
  | [] => []
  | n :: r =>
      if isElement n then
        match i with
        | O => kids
        | S i' => fromElement i' r
        end
      else fromElement i r
  end.

End Dom.

Import Dom.

(** What a callback of [applyToAllSuccessors] did to the element it was
    given.  The two callbacks of the file assign [element.style] or
    unwrap the element. *)
Inductive effect :=
| Untouched
| Restyled (style : string)
| Unwrapped.

Definition callback : Type := node → outcome effect.

(** ** Blocks, pieces and transform rules *)

Inductive attrValue :=
| AStr (s : string)
| ANum (z : Z)
| ABool (b : bool).

Definition attributes : Type := list (string * attrValue).

Inductive block :=
| Block (name : string) (attrs : attributes) (innerBlocks : list block).

Definition blockName_of (b : block) : string :=
  match b with Block n _ _ => n end.
Definition blockAttributes (b : block) : attributes :=
  match b with Block _ a _ => a end.
Definition blockInner (b : block) : list block :=
  match b with Block _ _ i => i end.

(** What the shortcode converter yields: markup, or a block that stands
    for a matched shortcode. *)
Inductive piece :=
| PieceHTML (html : string)
| PieceBlock (b : block).

(** A transform as a block type registers it. *)
Record transformRule := {
  rule_type : string;
  rule_isMatch : option (node → bool);
  rule_selector : option string;
  rule_transform : option (node → option block);
  rule_blockName : string
}.

(** A raw transform as [getRawTransformations] returns it: [isMatch] is
    always there. *)
Record rawTransform := {
  isMatch : node → bool;
  transform : option (node → option block);
  blockName : string
}.

Inductive pasteMode := AUTO | INLINE | BLOCKS.

Global Instance pasteMode_eq_dec : EqDecision pasteMode.
Proof. solve_decision. Defined.

(** The options of [pasteHandler]; [None] is a field left out. *)
Record pasteOptions := {
  opt_HTML : option string;
  opt_plainText : option string;
  opt_mode : option pasteMode;
  opt_tagName : option string;
  opt_preserveWhiteSpace : bool
}.

(** What [pasteHandler] returns. *)
Inductive pasted :=
| InlineString (s : string)
| BlockList (blocks : list block).

(** The node filters handed to [deepFilterHTML]. *)
Inductive nodeFilter :=
| googleDocsUIDRemover | msListConverter | headRemover | listReducer
| imageCorrector | phrasingContentReducer | specialCommentConverter
| commentRemover | iframeRemover | figureContentReducer
| blockquoteNormaliser | htmlFormattingRemover | brRemover
| emptyParagraphRemover.

Definition LF : string := String "010"%char EmptyString.

(** The double quote, and a declaration block as the browser serializes
    it, whose value holds a semicolon. *)
Definition dq : string := String "034"%char EmptyString.
Definition dataUrl : string :=
  "background-image: url(" +:+ dq +:+ "data:image/png;base64,AAAA" +:+ dq +:+ ");".

(** ** The surroundings of the paste handler *)

(** The browser. *)
Class Browser := {
  (** [parseFragment ctx html]: the child nodes of a fresh [ctx] element
      after [innerHTML = html]. *)
  parseFragment : string → string → list node;
  (** The [innerHTML] and [outerHTML] getters. *)
  serializeFragment : list node → string;
  outerHTML : node → string;
  (** The serialization of the declaration block parsed from a string. *)
  cssSerialize : string → string;
  (** [node.matches(selector)] *)
  matches : node → string → bool;
  (** [String.prototype.normalize], where the engine has it. *)
  normalize : option (string → string)
}.

(** The modules that the paste handler imports. *)
Class Imports := {
  tagSchema : Type;
  parseWithGrammar : string → list block;
  markdownConverter : string → string;
  shortcodeConverter : string → list piece;
  isPlain : string → bool;
  isInlineContent : string → option string → bool;
  deepFilterHTML :
    string → list nodeFilter → option (JsObject.obj tagSchema) → string;
  removeInvalidHTML : string → JsObject.obj tagSchema → string;
  normaliseBlocks : string → string;
  getPhrasingContentSchema : string → JsObject.obj tagSchema;
  getBlockContentSchema :
    list rawTransform → JsObject.obj tagSchema → bool → JsObject.obj tagSchema;
  getBlockTransforms : string → list transformRule;
  getBlockAttributes : string → string → attributes;
  hasBlockSupport : string → string → bool → bool;
  getBlockContent : block → string
}.

(** ** The paste handler *)

Section Paste.

Context {browser : Browser} {imports : Imports}.

(** Modelled from the spec: [createBlock], of the block factory, builds
    a node of the given type that holds the given attributes and has no
    child nodes. *)
Definition createBlock (name : string) (a : attributes) : block :=
  Block name a [].

(** Modelled from the spec: [findTransform], of the block factory,
    queries the rules in registration order; the first match wins. *)
Definition findTransform (transforms : list rawTransform)
    (predicate : rawTransform → bool) : option rawTransform :=
  List.find predicate transforms.

(** *** Inline styles *)

Definition cssText (n : node) : string :=
  match getAttribute "style" (attributesOf n) with
  | Some v => cssSerialize v
  | None => EmptyString
  end.

(** [element.style = s] *)
Definition setStyle (s : string) (n : node) : node :=
  match n with
  | Element t a kids => Element t (setAttribute "style" (cssSerialize s) a) kids
  | _ => n
  end.

(** Modelled from the spec: [unwrap], of the DOM package, replaces an
    element by its child nodes.  [i] is the index of the element among
    the element children of its parent, whose child nodes are [kids]. *)
Definition unwrap (i : nat) (element : node) (kids : list node) : list node :=
  splice i (childNodesOf element) kids.

(** *** applyToAllSuccessors

    [walk fn kids i] is the loop [for (const child of head.children)]
    from index [i] on, for a head whose child nodes are [kids].  The
    collection is live: every round reads the [i]-th element child of
    the child nodes as they are then.  The result is the child nodes of
    the head when the loop is over.  An unwrapped child is left
    detached and without child nodes, so the recursive call on it
    visits nothing. *)
Fixpoint walk (fuel : nat) (fn : callback) (kids : list node) (i : nat)
  : outcome (list node) :=
  match fuel with
  | O => Throw Diverged
  | S fuel' =>
      match children kids !! i with
      | None => Ok kids
      | Some child =>
          e ← fn child;
          match e with
          | Unwrapped => walk fuel' fn (unwrap i child kids) (S i)
          | Restyled s =>
              let child := setStyle s child in
              sub ← walk fuel' fn (childNodesOf child) O;
              walk fuel' fn (splice i [withChildNodes child sub] kids) (S i)
          | Untouched =>
              sub ← walk fuel' fn (childNodesOf child) O;
              walk fuel' fn (splice i [withChildNodes child sub] kids) (S i)
          end
      end
  end.

Definition applyToAllSuccessors (kids : list node) (fn : callback)
  : outcome (list node) :=
  walk (S (forest_size kids)) fn kids O.

Definition removeDefaultStyles : callback := λ element,
  nonDefaultStyles ← nonDefaultStylesOf (cssText element);
  Ok (Restyled nonDefaultStyles).

Definition removeDefaultStylesFromAllElements (html : string) : outcome string :=
  let container := parseFragment "div" html in
  container ← applyToAllSuccessors container removeDefaultStyles;
  Ok (serializeFragment container).

Definition hasNoStylesOrAttrs (element : node) : bool :=
  negb (truthy (cssText element))
  && Nat.eqb (length (List.filter (λ attr, negb (String.eqb attr.1 "style"))
                                  (attributesOf element))) 0.

Definition unwrapIfBare : callback := λ element,
  Ok (if hasNoStylesOrAttrs element then Unwrapped else Untouched).

Definition unwrapSpansWithNoStylesAndAtrrs (HTML : string) : outcome string :=
  let container := parseFragment "div" HTML in
  container ← applyToAllSuccessors container unwrapIfBare;
  Ok (serializeFragment container).

(** *** filterInlineHTML

    The call to [removeInvalidHTML] with the phrasing-content schema is
    commented out in the source.  The [console.log] of the processed
    markup, here and in the block pipeline, has no part in the result. *)

Definition filterInlineHTML (HTML : string) (preserveWhiteSpace : bool)
  : outcome string :=
  HTML ← removeDefaultStylesFromAllElements HTML;
  let HTML :=
    deepFilterHTML HTML
      [googleDocsUIDRemover; phrasingContentReducer; commentRemover] None in
  let HTML :=
    if preserveWhiteSpace then HTML
    else deepFilterHTML HTML [htmlFormattingRemover; brRemover] None in
  unwrapSpansWithNoStylesAndAtrrs HTML.

(** *** Raw transforms and htmlToBlocks *)

Definition getRawTransformations : list rawTransform :=
  (λ t,
     {| isMatch :=
          match rule_isMatch t with
          | Some f => f
          | None => λ node,
              match rule_selector t with
              | Some sel => truthy sel && matches node sel
              | None => false
              end
          end;
        transform := rule_transform t;
        blockName := rule_blockName t |})
  <$> List.filter (λ t, String.eqb (rule_type t) "raw") (getBlockTransforms "from").

Definition htmlToBlock (rawTransforms : list rawTransform) (node : node)
  : option block :=
  match findTransform rawTransforms (λ r, isMatch r node) with
  | None =>
      Some (createBlock "core/html" (getBlockAttributes "core/html" (outerHTML node)))
  | Some rawTransform =>
      match transform rawTransform with
      | Some f => f node
      | None =>
          Some (createBlock (blockName rawTransform)
                  (getBlockAttributes (blockName rawTransform) (outerHTML node)))
      end
  end.

(** The array that [htmlToBlocks] returns; [None] is a transform that
    returned nothing. *)
Definition htmlToBlocks (html : string) (rawTransforms : list rawTransform)
  : list (option block) :=
  htmlToBlock rawTransforms <$> children (parseFragment "body" html).

(** lodash [compact] *)
Definition compact (l : list (option block)) : list block := omap id l.

(** *** pasteHandler, stage by stage *)

(** The check for block delimiters: the content to parse with the
    grammar, when there is one. *)
Definition delimitedContent (mode : pasteMode) (HTML plainText : string)
  : option string :=
  if bool_decide (mode ≠ INLINE) then
    let content := if truthy HTML then HTML else plainText in
    if negb (indexOf content "<!-- wp:" =? -1) then Some content else None
  else None.

Definition normalizeUnicode (HTML : string) : string :=
  match normalize with
  | Some f => f HTML
  | None => HTML
  end.

(** The Markdown step: the markup and the mode after it. *)
Definition markdownStep (HTML plainText : string) (mode : pasteMode)
  : string * pasteMode :=
  if truthy plainText && (negb (truthy HTML) || isPlain HTML) then
    let HTML := markdownConverter plainText in
    if bool_decide (mode = AUTO)
       && (indexOf plainText LF =? -1)
       && negb (indexOf plainText "<p>" =? 0)
       && (indexOf HTML "<p>" =? 0)
    then (HTML, INLINE)
    else (HTML, mode)
  else (HTML, mode).

(** The callback of [flatMap] over the pieces. *)
Definition pieceToBlocks (rawTransforms : list rawTransform)
    (phrasingContentSchema blockContentSchema : JsObject.obj tagSchema)
    (p : piece) : list (option block) :=
  match p with
  | PieceBlock b => [Some b]
  | PieceHTML piece =>
      let filters :=
        [googleDocsUIDRemover; msListConverter; headRemover; listReducer;
         imageCorrector; phrasingContentReducer; specialCommentConverter;
         commentRemover; iframeRemover; figureContentReducer;
         blockquoteNormaliser] in
      let schema := JsObject.spread blockContentSchema phrasingContentSchema in
      let piece := deepFilterHTML piece filters (Some blockContentSchema) in
      let piece := removeInvalidHTML piece schema in
      let piece := normaliseBlocks piece in
      let piece :=
        deepFilterHTML piece
          [htmlFormattingRemover; brRemover; emptyParagraphRemover]
          (Some blockContentSchema) in
      htmlToBlocks piece rawTransforms
  end.

(** The blocks of the pieces. *)
Definition blocksOfPieces (pieces : list piece) : list block :=
  let rawTransforms := getRawTransformations in
  let phrasingContentSchema := getPhrasingContentSchema "paste" in
  let blockContentSchema :=
    getBlockContentSchema rawTransforms phrasingContentSchema true in
  compact (flat_map (pieceToBlocks rawTransforms phrasingContentSchema
                                   blockContentSchema) pieces).

(** The end of [pasteHandler]: one inlineable block and plain text on a
    single line make an inline paste. *)
Definition finishBlocks (mode : pasteMode) (plainText : string)
    (blocks : list block) : pasted :=
  match blocks with
  | [b] =>
      if bool_decide (mode = AUTO)
         && hasBlockSupport (blockName_of b) "__unstablePasteTextInline" false
      then
        let trimmedPlainText := trim plainText in
        if truthy trimmedPlainText && (indexOf trimmedPlainText LF =? -1)
        then InlineString (removeInvalidHTML (getBlockContent b)
                             (getPhrasingContentSchema "paste"))
        else BlockList blocks
      else BlockList blocks
  | _ => BlockList blocks
  end.

(** Where a paste goes: to the grammar, through the inline filters, or
    through the block pipeline with the mode it has by then. *)
Inductive route :=
| ToGrammar (content : string)
| ToInline (HTML : string)
| ToBlocks (mode : pasteMode) (pieces : list piece).

(** [pasteHandler] up to the point where it takes one of its routes. *)
Definition routeOf (options : pasteOptions) : route :=
  let HTML := default EmptyString (opt_HTML options) in
  let plainText := default EmptyString (opt_plainText options) in
  let mode := default AUTO (opt_mode options) in
  let tagName := opt_tagName options in
  let HTML := stripWrappers HTML in
  match delimitedContent mode HTML plainText with
  | Some content => ToGrammar content
  | None =>
      let HTML := normalizeUnicode HTML in
      let '(HTML, mode) := markdownStep HTML plainText mode in
      if bool_decide (mode = INLINE) then ToInline HTML
      else
        let pieces := shortcodeConverter HTML in
        let hasShortcodes := (1 <? length pieces)%nat in
        if bool_decide (mode = AUTO) && negb hasShortcodes
           && isInlineContent HTML tagName
        then ToInline HTML
        else ToBlocks mode pieces
  end.

Definition pasteHandler (options : pasteOptions) : outcome pasted :=
  let plainText := default EmptyString (opt_plainText options) in
  let preserveWhiteSpace := opt_preserveWhiteSpace options in
  match routeOf options with
  | ToGrammar content => Ok (BlockList (parseWithGrammar content))
  | ToInline HTML => InlineString <$> filterInlineHTML HTML preserveWhiteSpace
  | ToBlocks mode pieces =>
      Ok (finishBlocks mode plainText (blocksOfPieces pieces))
  end.

End Paste.

(** ** The term-tree filter of the hierarchical term selector

    Terms are objects that the caller keeps hold of, so they live in a
    store: a term object refers to the array of its children, and an
    array holds references to term objects, or [false]. *)

Module TermSelector.

Abbreviation loc := positive.

Inductive value :=
| VFalse
| VRef (l : loc).

Inductive cell :=
| TermObject (id : Z) (name : string) (parent : Z) (children : loc)
| ArrayObject (elems : list value).

Abbreviation heap := (gmap loc cell).

Definition alloc (c : cell) (h : heap) : loc * heap :=
  let l := fresh (dom h) in (l, <[l := c]> h).

Definition isRef (v : value) : bool :=
  match v with VRef _ => true | VFalse => false end.

(** [array.map(f)] for a callback that works on the store. *)
Fixpoint mapArray (f : loc → heap → outcome (value * heap))
    (elems : list value) (h : heap) : outcome (list value * heap) :=
  match elems with
  | [] => Ok ([], h)
  | VRef l :: rest =>
      '(r, h) ← f l h;
      '(rs, h) ← mapArray f rest h;
      Ok (r :: rs, h)
  | VFalse :: _ => Throw (TypeError "Cannot read properties of undefined")
  end.

Section Filter.

(** [String.prototype.toLowerCase] *)
Variable toLowerCase : string → string.

Definition nameContains (filterValue name : string) : bool :=
  negb (indexOf (toLowerCase name) (toLowerCase filterValue) =? -1).

Fixpoint matchTermsForFilter (fuel : nat) (filterValue : string)
    (originalTerm : loc) (h : heap) : outcome (value * heap) :=
  match fuel with
  | O => Throw Diverged
  | S fuel' =>
      if String.eqb EmptyString filterValue then Ok (VRef originalTerm, h)
      else
        match h !! originalTerm with
        | Some (TermObject id name parent children) =>
            (* const term = { ...originalTerm } *)
            let '(term, h) := alloc (TermObject id name parent children) h in
            match h !! children with
            | Some (ArrayObject elems) =>
                '(len, h) ←
                  (if (0 <? length elems)%nat then
                     '(mapped, h) ←
                       mapArray (matchTermsForFilter fuel' filterValue) elems h;
                     let '(_, h) := alloc (ArrayObject mapped) h in
                     let kept := List.filter isRef mapped in
                     let '(filtered, h) := alloc (ArrayObject kept) h in
                     Ok (length kept,
                         <[term := TermObject id name parent filtered]> h)
                   else Ok (length elems, h));
                if nameContains filterValue name || (0 <? len)%nat
                then Ok (VRef term, h)
                else Ok (VFalse, h)
            | _ => Throw (TypeError "Cannot read properties of undefined")
            end
        | _ => Throw (TypeError "Cannot read properties of undefined")
        end
  end.

Definition getFilterMatcher (filterValue : string)
  : nat → loc → heap → outcome (value * heap) :=
  λ fuel, matchTermsForFilter fuel filterValue.

(** *** Term trees, and what the store holds *)

Inductive term :=
| Term (id : Z) (name : string) (parent : Z) (children : list term).

Definition termName (t : term) : string :=
  match t with Term _ n _ _ => n end.
Definition termChildren (t : term) : list term :=
  match t with Term _ _ _ c => c end.

Fixpoint height (t : term) : nat :=
  match t with
  | Term _ _ _ c => S (foldr Nat.max O (height <$> c))
  end.

(** [represents h t l]: the object at [l] in the store [h] is the root
    of the term tree [t]. *)
Fixpoint represents (h : heap) (t : term) (l : loc) : Prop :=
  match t with
  | Term id name parent c =>
      ∃ a ls,
        h !! l = Some (TermObject id name parent a)
        ∧ h !! a = Some (ArrayObject (VRef <$> ls))
        ∧ (fix all (c : list term) (ls : list loc) : Prop :=
             match c, ls with
             | [], [] => True
             | t' :: c', l' :: ls' => represents h t' l' ∧ all c' ls'
             | _, _ => False
             end) c ls
  end.

(** A term is kept when its name contains the filter value, whatever
    the case of the letters, or when one of its children is kept. *)
Fixpoint kept (filterValue : string) (t : term) : bool :=
  match t with
  | Term _ name _ c =>
      nameContains filterValue name || existsb (kept filterValue) c
  end.

(** Stated from the specification, to compare [kept] with: a term is
    kept when the filter value occurs in its name, both taken in lower
    case, or when one of its children is kept.  This one does not use
    the test of the matcher. *)
Fixpoint keptAsSpecified (filterValue : string) (t : term) : Prop :=
  match t with
  | Term _ name _ c =>
      occursIn (toLowerCase filterValue) (toLowerCase name)
      ∨ (fix some (c : list term) : Prop :=
           match c with
           | [] => False
           | t' :: c' => keptAsSpecified filterValue t' ∨ some c'
           end) c
  end.

(** The tree that the filter leaves of a term. *)
Fixpoint filtered (filterValue : string) (t : term) : option term :=
  match t with
  | Term id name parent c =>
      let c' := omap (filtered filterValue) c in
      if nameContains filterValue name || (0 <? length c')%nat
      then Some (Term id name parent c')
      else None
  end.

(** What a call on the root of [t] leaves behind, for a store [h]
    before the call and [h'] after it, where the tree of [t] lives in
    the part [hb] of [h]: [false] when the term is not kept; otherwise
    an object that was not in [h], which is the root of the filtered
    tree in every store that holds [hb] and the objects that the call
    created. *)
Definition leaves (filterValue : string) (hb h h' : heap) (t : term)
    (r : value) : Prop :=
  match filtered filterValue t with
  | None => r = VFalse
  | Some t' =>
      ∃ l', r = VRef l' ∧ h !! l' = None
        ∧ ∀ h'' : heap,
            hb ⊆ h'' →
            (∀ k, h !! k = None → is_Some (h' !! k) → h'' !! k = h' !! k) →
            represents h'' t' l'
  end.

(** The object returned for the term at [l] is a shallow clone: it has
    the identifier, name and parent of the original, and its children
    are a new array when the original has children, the array of the
    original when it has none. *)
Definition shallowClone (h h' : heap) (t : term) (l : loc) (r : value) : Prop :=
  ∀ l', r = VRef l' →
    ∃ id name parent a a',
      h !! l = Some (TermObject id name parent a)
      ∧ h' !! l' = Some (TermObject id name parent a')
      ∧ match termChildren t with
        | [] => a' = a
        | _ => h !! a' = None
        end.

End Filter.

End TermSelector.

(** ** A small environment to run the handler in

    A browser that knows a handful of documents, and imports that do as
    little as they can: one raw transform, from [p] to a paragraph
    block. *)

Module Demo.

Fixpoint serializeNode (n : node) : string :=
  match n with
  | Text d => d
  | Comment d => "<!--" +:+ d +:+ "-->"
  | Element t a kids =>
      "<" +:+ t
      +:+ foldr (λ e acc, " " +:+ e.1 +:+ "=" +:+ dq +:+ e.2 +:+ dq +:+ acc)
                EmptyString a
      +:+ ">" +:+ foldr (λ k acc, serializeNode k +:+ acc) EmptyString kids
      +:+ "</" +:+ t +:+ ">"
  end.

Definition serialize (kids : list node) : string :=
  foldr (λ k acc, serializeNode k +:+ acc) EmptyString kids.

Definition documents : list (list node) :=
  [ [Element "p" [] [Text "hello world"]];
    [Element "p" [("style", "")] [Text "hello world"]];
    [Element "p" [] [Text "x"]];
    [Element "foo" [] [Text "bar"]];
    [Element "div" [("class", "a")] [Text "x"]];
    [Element "div" [("class", "a"); ("style", "")] [Text "x"]];
    [Element "span" [("style", dataUrl)] [Text "x"]];
    [Element "strong" [] [Text "a"]; Element "em" [] [Text "b"]] ].

Definition parse (html : string) : list node :=
  match List.find (λ d, String.eqb (serialize d) html) documents with
  | Some d => d
  | None => if truthy html then [Text html] else []
  end.

Definition hasTag (n : node) (t : string) : bool :=
  match n with Element t' _ _ => String.eqb t t' | _ => false end.

Global Instance browser : Browser := {|
  parseFragment := λ _ html, parse html;
  serializeFragment := serialize;
  outerHTML := serializeNode;
  cssSerialize := λ s, s;
  matches := hasTag;
  normalize := Some (λ s, s)
|}.

Definition paragraphRule : transformRule := {|
  rule_type := "raw";
  rule_isMatch := None;
  rule_selector := Some "p";
  rule_transform := None;
  rule_blockName := "core/paragraph"
|}.

Global Instance imports : Imports := {|
  tagSchema := unit;
  parseWithGrammar := λ s, [Block "core/freeform" [("content", AStr s)] []];
  markdownConverter := λ s, "<p>" +:+ s +:+ "</p>";
  shortcodeConverter := λ s, [PieceHTML s];
  isPlain := λ s, indexOf s "<" =? -1;
  isInlineContent := λ _ _, false;
  deepFilterHTML := λ s _ _, s;
  removeInvalidHTML := λ s _, s;
  normaliseBlocks := λ s, s;
  getPhrasingContentSchema := λ _, [];
  getBlockContentSchema := λ _ s _, s;
  getBlockTransforms := λ _, [paragraphRule];
  getBlockAttributes := λ _ m, [("content", AStr m)];
  hasBlockSupport := λ name feature _,
    String.eqb name "core/paragraph"
    && String.eqb feature "__unstablePasteTextInline";
  getBlockContent := λ b,
    match blockAttributes b with
    | [(_, AStr m)] => m
    | _ => EmptyString
    end
|}.

Definition options (HTML plainText : string) (mode : pasteMode) : pasteOptions := {|
  opt_HTML := Some HTML;
  opt_plainText := Some plainText;
  opt_mode := Some mode;
  opt_tagName := None;
  opt_preserveWhiteSpace := false
|}.

(** A paragraph pasted with plain text that is one blank. *)
Definition blankPaste : pasteOptions := options "<p>x</p>" " " AUTO.
Definition paragraphX : block :=
  Block "core/paragraph" [("content", AStr "<p>x</p>")] [].

(** Lower case for the letters A to Z. *)
Definition lowerChar (a : ascii) : ascii :=
  let n := nat_of_ascii a in
  if Nat.leb 65 n && Nat.leb n 90 then ascii_of_nat (n + 32) else a.

Fixpoint toLowerCase (s : string) : string :=
  match s with
  | EmptyString => EmptyString
  | String a r => String (lowerChar a) (toLowerCase r)
  end.

(** A store with the term Fruit and its child Apple. *)
Definition fruit : TermSelector.term :=
  TermSelector.Term 10 "Fruit" 0 [TermSelector.Term 11 "Apple" 10 []].

Definition fruitStore : gmap positive TermSelector.cell :=
  <[1%positive := TermSelector.TermObject 10 "Fruit" 0 2]>
  (<[2%positive := TermSelector.ArrayObject [TermSelector.VRef 3]]>
  (<[3%positive := TermSelector.TermObject 11 "Apple" 10 4]>
  (<[4%positive := TermSelector.ArrayObject []]> ∅))).

End Demo.

(** ** What the traversals come to

    Reference functions, by recursion on the tree, against which the
    walks over the live collection are measured. *)

Module Reference.

(** The text and comment nodes of a forest, in document order. *)
Fixpoint leavesOfNode (n : node) : list node :=
  match n with
  | Element _ _ kids => flat_map leavesOfNode kids
  | _ => [n]
  end.

Definition leavesOf (kids : list node) : list node := flat_map leavesOfNode kids.

(** [P] holds of every element of the forest, at every depth. *)
Fixpoint everyElementOfNode (P : node → Prop) (n : node) : Prop :=
  match n with
  | Element _ _ kids =>
      P n ∧ (fix all (ks : list node) : Prop :=
               match ks with
               | [] => True
               | k :: r => everyElementOfNode P k ∧ all r
               end) kids
  | _ => True
  end.

Definition everyElement (P : node → Prop) (kids : list node) : Prop :=
  Forall (everyElementOfNode P) kids.

Section Restyle.

Context {browser : Browser}.

(** Every element restyled once, parents before children and siblings
    left to right; the shape of the forest is kept. *)
Fixpoint restyleNode (n : node) : outcome node :=
  match n with
  | Element _ _ kids =>
      s ← nonDefaultStylesOf (cssText n);
      kids' ← (fix go (ks : list node) : outcome (list node) :=
                 match ks with
                 | [] => Ok []
                 | k :: r => k' ← restyleNode k; r' ← go r; Ok (k' :: r')
                 end) kids;
      Ok (withChildNodes (setStyle s n) kids')
  | _ => Ok n
  end.

Definition restyleForest (kids : list node) : outcome (list node) :=
  mapM restyleNode kids.

End Restyle.

End Reference.

(** ** The rest of the hierarchical term selector

    The functions that read term trees without changing them, on the
    trees themselves. *)

Module TermTree.

Import TermSelector.

(** [a.indexOf(x)] on an array of numbers. *)
Fixpoint indexOfId (a : list Z) (x : Z) : Z :=
  match a with
  | [] => -1
  | y :: r =>
      if Z.eqb y x then 0
      else let i := indexOfId r x in if Z.eqb i (-1) then -1 else Z.succ i
  end.

(** [treeHasSelection], the inner function of [sortBySelected].  The
    children of a term are always an array here, so the test for
    [undefined] children never fires. *)
Fixpoint treeHasSelection (terms : list Z) (termTree : term) : bool :=
  match termTree with
  | Term id _ _ children =>
      if negb (Z.eqb (indexOfId terms id) (-1)) then true
      else
        let anyChildIsSelected :=
          (0 <? length (List.filter (λ child : bool, child)
                          (List.map (treeHasSelection terms) children)))%nat in
        if anyChildIsSelected then true else false
  end.

Definition termOrChildIsSelected (terms : list Z) (termA termB : term) : Z :=
  let termASelected := treeHasSelection terms termA in
  let termBSelected := treeHasSelection terms termB in
  if Bool.eqb termASelected termBSelected then 0
  else if termASelected && negb termBSelected then -1
  else if negb termASelected && termBSelected then 1
  else 0.

(** [Array.prototype.sort] with a comparator.  The sort is stable; it
    is written as an insertion sort that puts an element before the
    first one it does not compare greater than. *)
Fixpoint insertSorted {A} (compare : A → A → Z) (x : A) (l : list A) : list A :=
  match l with
  | [] => [x]
  | y :: r =>
      if Z.leb (compare x y) 0 then x :: l else y :: insertSorted compare x r
  end.

Definition sort {A} (compare : A → A → Z) (l : list A) : list A :=
  fold_right (insertSorted compare) [] l.

(** [sortBySelected] sorts the array it is given and returns it. *)
Definition sortBySelected (termsTree : list term) (terms : list Z) : list term :=
  sort (termOrChildIsSelected terms) termsTree.

(** lodash [without] *)
Definition without (a : list Z) (x : Z) : list Z :=
  List.filter (λ y, negb (Z.eqb y x)) a.

(** The selection that [onChange] hands to [onUpdateTerms]. *)
Definition onChange (terms : list Z) (termId : Z) : list Z :=
  let hasTerm := negb (Z.eqb (indexOfId terms termId) (-1)) in
  if hasTerm then without terms termId else terms ++ [termId].

(** [getResultCount], the inner function of [setFilter]: a round of
    its loop adds one for the element and the count of its children. *)
Fixpoint resultCountOf (t : term) : nat :=
  match t with
  | Term _ _ _ children => S (list_sum (List.map resultCountOf children))
  end.

Definition getResultCount (termsTree : list term) : nat :=
  list_sum (List.map resultCountOf termsTree).

(** The identifiers and names of a tree, in document order, and the
    terms of a tree that have no children. *)
Fixpoint termNodes (t : term) : list (Z * string) :=
  match t with
  | Term id name _ children => (id, name) :: flat_map termNodes children
  end.

Fixpoint termLeaves (t : term) : list term :=
  match t with
  | Term _ _ _ [] => [t]
  | Term _ _ _ children => flat_map termLeaves children
  end.

Section State.

Variable toLowerCase : string → string.

(** What the matcher of [getFilterMatcher] makes of a tree. *)
Definition matchTree (filterValue : string) (t : term) : option term :=
  if String.eqb EmptyString filterValue then Some t
  else filtered toLowerCase filterValue t.

(** The two pieces of state that [setFilter] writes. *)
Record filterState := {
  filterValue : string;
  filteredTermsTree : list term
}.

(** [setFilter]: the state after the event, and the count it speaks. *)
Definition setFilter (availableTermsTree : list term) (state : filterState)
    (value : string) : filterState * nat :=
  let newFilteredTermsTree :=
    omap (matchTree (filterValue state)) availableTermsTree in
  let resultCount := getResultCount newFilteredTermsTree in
  ({| filterValue := value; filteredTermsTree := newFilteredTermsTree |},
   resultCount).

(** The tree handed to [renderTerms]. *)
Definition renderedTerms (availableTermsTree : list term) (state : filterState)
  : list term :=
  if negb (String.eqb EmptyString (filterValue state))
  then filteredTermsTree state
  else availableTermsTree.

End State.

End TermTree.

(** ** Unit values

    The string functions of the unit-value utilities.  Values are
    strings here; [parseFloat] and the imported [isValueNumeric] are
    parameters, and so is [toLowerCase]. *)

Module UnitValues.

Definition isDigit (c : ascii) : bool :=
  let n := nat_of_ascii c in Nat.leb 48 n && Nat.leb n 57.

Definition isLetter (c : ascii) : bool :=
  let n := nat_of_ascii c in
  (Nat.leb 65 n && Nat.leb n 90) || (Nat.leb 97 n && Nat.leb n 122).

(** The class \w, and the class of the symbols that may not end a value. *)
Definition isWord (c : ascii) : bool :=
  isLetter c || isDigit c || Ascii.eqb c "_".

Definition symbols : string := "-!$^&*()_+|~=`{}[]:" +:+ dq +:+ ";'<>?,./".

Definition isSymbol (c : ascii) : bool :=
  existsb (Ascii.eqb c) (String.list_ascii_of_string symbols).

(** Letters and digits: the alphanumeric characters. *)
Definition alphanumeric (c : ascii) : bool := isLetter c || isDigit c.

(** The class [\d.\-+] *)
Definition isNumberChar (c : ascii) : bool :=
  isDigit c || Ascii.eqb c "." || Ascii.eqb c "-" || Ascii.eqb c "+".

Fixpoint lastChar (s : string) : option ascii :=
  match s with
  | EmptyString => None
  | String c EmptyString => Some c
  | String _ r => lastChar r
  end.

Fixpoint dropWhile (p : ascii → bool) (s : string) : string :=
  match s with
  | String c r => if p c then dropWhile p r else s
  | EmptyString => EmptyString
  end.

Fixpoint takeWhile (p : ascii → bool) (s : string) : string :=
  match s with
  | String c r => if p c then String c (takeWhile p r) else EmptyString
  | EmptyString => EmptyString
  end.

(** The tests of [isValidNumericUnitValue], one for each pattern. *)

(* a blank, anywhere *)
Fixpoint hasSpace (s : string) : bool :=
  match s with
  | String c r => Ascii.eqb c " " || hasSpace r
  | EmptyString => false
  end.

(* ^0[0-9] *)
Definition startsWithZeroDigit (s : string) : bool :=
  match s with
  | String c (String d _) => Ascii.eqb c "0" && isDigit d
  | _ => false
  end.

(* a symbol of the class, then the end *)
Definition endsWithSymbol (s : string) : bool :=
  match lastChar s with
  | Some c => isSymbol c
  | None => false
  end.

(* ^\W *)
Definition startsWithNonWord (s : string) : bool :=
  match s with
  | String c _ => negb (isWord c)
  | EmptyString => false
  end.

(* ^-\w *)
Definition startsWithMinusWord (s : string) : bool :=
  match s with
  | String c (String d _) => Ascii.eqb c "-" && isWord d
  | _ => false
  end.

(* \.[a-zA-Z], anywhere *)
Fixpoint hasDotLetter (s : string) : bool :=
  match s with
  | String c r =>
      (Ascii.eqb c "."
       && match r with String d _ => isLetter d | EmptyString => false end)
      || hasDotLetter r
  | EmptyString => false
  end.

(* \d+\.\d+\.\d+, anywhere: the last digit of the first run, a dot, a
   run of digits, a dot and a digit *)
Definition twoDotsHere (s : string) : bool :=
  match s with
  | String d (String p r) =>
      isDigit d && Ascii.eqb p "."
      && match r with
         | String d2 _ =>
             isDigit d2
             && match dropWhile isDigit r with
                | String p2 (String d3 _) => Ascii.eqb p2 "." && isDigit d3
                | _ => false
                end
         | EmptyString => false
         end
  | _ => false
  end.

Fixpoint hasTwoDots (s : string) : bool :=
  twoDotsHere s
  || match s with
     | String _ r => hasTwoDots r
     | EmptyString => false
     end.

Section Units.

Variable isValueNumeric : string → bool.
Variable toLowerCase : string → string.
Variable number : Type.
(** [parseFloat]; [None] is NaN. *)
Variable parseFloat : string → option number.

Definition isValidNumericUnitValue (value : string) : bool :=
  if hasSpace value then false
  else if startsWithZeroDigit value then false
  else if endsWithSymbol value then false
  else if isValueNumeric value then true
  else if startsWithNonWord value && negb (startsWithMinusWord value) then false
  else if hasDotLetter value then false
  else if hasTwoDots value then false
  else true.

(** The number of a parsed value, or the empty string that stands for
    NaN. *)
Inductive parsedNumber :=
| NumberValue (n : number)
| NoNumber.

(** [value.match]: the pattern is a run of digits, dots and signs,
    then white space, then a group that takes the rest of the line.
    It matches at the start of every string; the result is the group. *)
Definition matchUnit (value : string) : option string :=
  Some (takeWhile (λ c, negb (is_line_terminator c))
          (dropWhile is_space (dropWhile isNumberChar value))).

(** [parseUnitValue]; [None] as argument is [null] or [undefined], and
    [None] in the result is [undefined]. *)
Definition parseUnitValue (initialValue : option string)
  : option parsedNumber * option string :=
  match initialValue with
  | None => (None, None)
  | Some initialValue =>
      let value := trim initialValue in
      let num := from_option NumberValue NoNumber (parseFloat value) in
      match matchUnit value with
      | None => (None, None)
      | Some unitMatch =>
          let unit := toLowerCase unitMatch in
          (Some num, Some unit)
      end
  end.

Definition getParsedValue (value unit : string)
  : option parsedNumber * option string :=
  let initialValue := if truthy unit then value +:+ unit else value in
  parseUnitValue (Some initialValue).

Definition createUnitValue (value unit : string) : string :=
  if negb (truthy unit) || negb (isValueNumeric value) then value
  else value +:+ unit.

End Units.

End UnitValues.

(** ** Further sample inputs *)

Module Sample.

(** A raw transform that matches every node and returns no block. *)
Definition dropEverything : rawTransform := {|
  isMatch := λ _, true;
  transform := Some (λ _, None);
  blockName := "core/none"
|}.

(** The state of the selector before anything was typed. *)
Definition nothingTyped : TermTree.filterState := {|
  TermTree.filterValue := EmptyString;
  TermTree.filteredTermsTree := []
|}.

Definition strongAndEm : list node :=
  [Element "strong" [] [Text "a"]; Element "em" [] [Text "b"]].

Definition dataUrlPaste : pasteOptions :=
  Demo.options (Demo.serialize [Element "span" [("style", dataUrl)] [Text "x"]])
               EmptyString INLINE.

Definition delimitedPaste : pasteOptions :=
  Demo.options
    "<meta charset='utf-8'><!-- wp:paragraph --><p>Hi</p><!-- /wp:paragraph -->"
    EmptyString AUTO.

End Sample.

(** * Properties *)

(** ** Sanity checks of the string and style primitives *)

Example indexOf_found : indexOf "ab<!-- wp:x" "<!-- wp:" = 2.
Proof. reflexivity. Qed.
Example indexOf_absent : indexOf "abc" "<!-- wp:" = -1.
Proof. reflexivity. Qed.
Example split_semis : split "a: b;c;" ";" = ["a: b"; "c"; ""].
Proof. reflexivity. Qed.
Example trim_both : trim "  a b
 " = "a b".
Proof. reflexivity. Qed.
Example strip_meta :
  stripWrappers "<meta charset='utf-8'><p>Hi</p>" = "<p>Hi</p>".
Proof. reflexivity. Qed.
Example strip_meta_needs_attribute : stripWrappers "<meta><p>Hi</p>" = "<meta><p>Hi</p>".
Proof. reflexivity. Qed.
Example strip_windows :
  stripWrappers "<HTML>
<body lang=en>
<!--StartFragment--><b>x</b><!--EndFragment-->
</BODY>
</html>
" = "<b>x</b>".
Proof. reflexivity. Qed.
Example strip_nothing :
  stripWrappers "<!-- wp:paragraph --><p>Hi</p><!-- /wp:paragraph -->"
  = "<!-- wp:paragraph --><p>Hi</p><!-- /wp:paragraph -->".
Proof. reflexivity. Qed.
Example entries_of_default_font_size :
  getStylesEntries "font-size: 20px; color: rgb(1, 2, 3);"
  = Ok [("font-size", [SStr "20px"]); ("color", [SStr " rgb(1,_2,_3)"])].
Proof. reflexivity. Qed.
Example default_styles_vanish : nonDefaultStylesOf defaultStyles = Ok "".
Proof. vm_compute. reflexivity. Qed.
Example no_styles : nonDefaultStylesOf "" = Ok "".
Proof. vm_compute. reflexivity. Qed.
Example red_survives :
  nonDefaultStylesOf "color: rgb(255, 0, 0); font-size: 20px; font-weight: 700;"
  = Ok "color: rgb(255,0,0); font-weight:700".
Proof. vm_compute. reflexivity. Qed.

Example demo_hello :
  pasteHandler (Demo.options "" "hello world" AUTO) = Ok (InlineString "hello world").
Proof. vm_compute. reflexivity. Qed.
Example demo_blank :
  pasteHandler (Demo.options "<p>x</p>" " " AUTO)
  = Ok (BlockList [Block "core/paragraph" [("content", AStr "<p>x</p>")] []]).
Proof. vm_compute. reflexivity. Qed.
Example demo_throw :
  pasteHandler (Demo.options (Demo.serialize [Element "span" [("style", dataUrl)] [Text "x"]]) "" INLINE)
  = Throw (TypeError "values.split is not a function").
Proof. vm_compute. reflexivity. Qed.

(** ** Strings *)

Lemma strip_prefix_spec p s r : strip_prefix p s = Some r ↔ s = p +:+ r.
Proof.
  revert s. induction p as [|a p IH]; intros s; simpl.
  - split; [intros [= ->]; reflexivity | intros ->; reflexivity].
  - destruct s as [|b s]; [split; discriminate|].
    destruct (Ascii.eqb_spec a b) as [->|Hne].
    + rewrite IH. split; [intros ->; reflexivity | intros [= ->]; reflexivity].
    + split; [discriminate | intros [= ? ?]; congruence].
Qed.

Lemma strip_prefix_None p s : strip_prefix p s = None ↔ ¬ beginsWith p s.
Proof.
  split.
  - intros Hn [post Hp]. apply strip_prefix_spec in Hp. congruence.
  - intros Hn. destruct (strip_prefix p s) as [r|] eqn:E; [|reflexivity].
    exfalso. apply Hn. exists r. by apply strip_prefix_spec.
Qed.

Lemma indexOf_lower_bound s x : -1 ≤ indexOf s x.
Proof.
  induction s as [|c r IH]; simpl.
  - destruct (strip_prefix x ""); lia.
  - destruct (strip_prefix x (String c r)); [lia|].
    destruct (Z.eqb_spec (indexOf r x) (-1)); lia.
Qed.

(** [s.indexOf(x) === 0] says that [s] begins with [x]. *)
Lemma indexOf_zero s x : indexOf s x = 0 ↔ beginsWith x s.
Proof.
  destruct (strip_prefix x s) as [r|] eqn:E.
  - split; intros _.
    + exists r. by apply strip_prefix_spec.
    + destruct s; simpl in *; rewrite E; reflexivity.
  - split.
    + intros H0. exfalso. destruct s as [|c r]; simpl in H0; rewrite E in H0.
      * lia.
      * pose proof (indexOf_lower_bound r x).
        destruct (Z.eqb_spec (indexOf r x) (-1)); lia.
    + intros Hb. by apply strip_prefix_None in E.
Qed.

(** [s.indexOf(x) !== -1] says that [x] occurs in [s]. *)
Lemma indexOf_occurs s x : indexOf s x ≠ -1 ↔ occursIn x s.
Proof.
  induction s as [|c r IH].
  - simpl. destruct (strip_prefix x "") as [q|] eqn:E.
    + split; [intros _|lia]. exists EmptyString, q. exact (proj1 (strip_prefix_spec _ _ _) E).
    + split; [lia|]. intros (pre & post & Heq). exfalso.
      apply strip_prefix_None in E. apply E.
      destruct pre; [|discriminate]. by exists post.
  - simpl. destruct (strip_prefix x (String c r)) as [q|] eqn:E.
    + split; [intros _|lia]. exists EmptyString, q. exact (proj1 (strip_prefix_spec _ _ _) E).
    + pose proof (indexOf_lower_bound r x).
      destruct (Z.eqb_spec (indexOf r x) (-1)) as [Hm|Hm].
      * split; [lia|]. intros (pre & post & Heq).
        destruct pre as [|c' pre].
        -- apply strip_prefix_None in E. exfalso. apply E. by exists post.
        -- injection Heq as -> ->. exfalso.
           assert (indexOf (pre +:+ x +:+ post) x ≠ -1) by (apply IH; by exists pre, post).
           lia.
      * split; [intros _|lia]. apply IH in Hm as (pre & post & ->).
        by exists (String c pre), post.
Qed.

Lemma indexOf_absent_iff s x : indexOf s x = -1 ↔ ¬ occursIn x s.
Proof.
  rewrite <- indexOf_occurs. destruct (Z.eq_dec (indexOf s x) (-1)); tauto.
Qed.

Lemma truthy_nonempty s : truthy s = true ↔ s ≠ EmptyString.
Proof. destruct s; simpl; split; congruence. Qed.

(** ** The live collection of element children *)

Lemma forest_size_cons n r : forest_size (n :: r) = (node_size n + forest_size r)%nat.
Proof. reflexivity. Qed.

Lemma forest_size_app a b : forest_size (a ++ b) = (forest_size a + forest_size b)%nat.
Proof. unfold forest_size. by rewrite fmap_app, list_sum_app. Qed.

Lemma node_size_pos n : (0 < node_size n)%nat.
Proof. destruct n; simpl; lia. Qed.

Lemma node_size_element n :
  isElement n = true → node_size n = S (forest_size (childNodesOf n)).
Proof. destruct n; simpl; [discriminate..|reflexivity]. Qed.

Lemma fromElement_size j kids : (forest_size (fromElement j kids) ≤ forest_size kids)%nat.
Proof.
  revert j. induction kids as [|n r IH]; intros j; simpl; [lia|].
  rewrite forest_size_cons.
  destruct (isElement n); [destruct j|]; rewrite ?forest_size_cons;
    try specialize (IH j); try lia.
Qed.

(** The [i]-th element child heads the child nodes that are left, and
    putting nodes in its place changes nothing before it. *)
Lemma children_lookup i kids child :
  children kids !! i = Some child →
  isElement child = true
  ∧ ∃ post, fromElement i kids = child :: post
      ∧ ∀ repl, fromElement (S i) (splice i repl kids) = fromElement 1 (repl ++ post).
Proof.
  revert i. induction kids as [|n r IH]; intros i; [discriminate|].
  unfold children in *. simpl.
  destruct (isElement n) eqn:En.
  - destruct i as [|i]; simpl.
    + intros [= ->]. split; [done|]. exists r. split; [done|]. intros repl. reflexivity.
    + intros Hl. destruct (IH _ Hl) as (He & post & Hf & Hs).
      split; [done|]. exists post. split; [done|]. intros repl.
      cbn [fromElement]. rewrite En. apply Hs.
  - intros Hl. destruct (IH _ Hl) as (He & post & Hf & Hs).
    split; [done|]. exists post. split; [done|]. intros repl.
    cbn [fromElement]. rewrite En. apply Hs.
Qed.

Lemma fromElement_one_element n post :
  isElement n = true → fromElement 1 (n :: post) = fromElement 0 post.
Proof. intros E. simpl. by rewrite E. Qed.

Section PasteFacts.

Context {browser : Browser} {imports : Imports}.

Lemma setStyle_element s n : isElement (setStyle s n) = isElement n.
Proof. by destruct n. Qed.

Lemma setStyle_childNodes s n : childNodesOf (setStyle s n) = childNodesOf n.
Proof. by destruct n. Qed.

Lemma withChildNodes_element n kids : isElement (withChildNodes n kids) = isElement n.
Proof. by destruct n. Qed.

(** The walk over the element children comes to an end: it returns, or
    it throws what its callback threw. *)
Lemma walk_outcome fuel fn kids i :
  (forest_size (fromElement i kids) < fuel)%nat →
  returns (walk fuel fn kids i)
  ∨ ∃ n e, fn n = Throw e ∧ walk fuel fn kids i = Throw e.
Proof.
  revert kids i. induction fuel as [|fuel IH]; intros kids i Hlt; [lia|].
  simpl. destruct (children kids !! i) as [child|] eqn:Hc; [|left; by eexists].
  destruct (children_lookup _ _ _ Hc) as (He & post & Hf & Hs).
  rewrite Hf, forest_size_cons, (node_size_element _ He) in Hlt.
  destruct (fn child) as [e|err] eqn:Hfn; [|right; by exists child, err].
  assert (Hnext : ∀ c', isElement c' = true →
            (forest_size (fromElement (S i) (splice i [c'] kids)) < fuel)%nat).
  { intros c' Hc'. rewrite Hs. simpl. rewrite Hc'.
    pose proof (fromElement_size 0 post). lia. }
  assert (Hsub : ∀ c', childNodesOf c' = childNodesOf child →
            (forest_size (fromElement 0 (childNodesOf c')) < fuel)%nat).
  { intros c' ->. pose proof (fromElement_size 0 (childNodesOf child)). lia. }
  cbn [mbind outcome_bind]. destruct e.
  - destruct (IH (childNodesOf child) O (Hsub _ eq_refl)) as [[sub ->]|(n & e & ? & ->)];
      [|right; by exists n, e].
    cbn [mbind outcome_bind]. apply IH, Hnext. by rewrite withChildNodes_element.
  - destruct (IH (childNodesOf (setStyle style child)) O
                 (Hsub _ (setStyle_childNodes _ _))) as [[sub ->]|(n & e & ? & ->)];
      [|right; by exists n, e].
    cbn [mbind outcome_bind]. apply IH, Hnext.
    by rewrite withChildNodes_element, setStyle_element.
  - apply IH. unfold unwrap. rewrite Hs.
    pose proof (fromElement_size 1 (childNodesOf child ++ post)).
    rewrite forest_size_app in *. lia.
Qed.

Lemma applyToAllSuccessors_outcome kids fn :
  returns (applyToAllSuccessors kids fn)
  ∨ ∃ n e, fn n = Throw e ∧ applyToAllSuccessors kids fn = Throw e.
Proof.
  apply walk_outcome. pose proof (fromElement_size 0 kids). lia.
Qed.

(** One round of the loop, by what the callback did. *)
Lemma walk_done fuel fn kids i :
  children kids !! i = None → walk (S fuel) fn kids i = Ok kids.
Proof. intros Hc. simpl. by rewrite Hc. Qed.

Lemma walk_unwrapped fuel fn kids i child :
  children kids !! i = Some child →
  fn child = Ok Unwrapped →
  walk (S fuel) fn kids i = walk fuel fn (unwrap i child kids) (S i).
Proof. intros Hc Hfn. simpl. by rewrite Hc, Hfn. Qed.

Lemma walk_restyled fuel fn kids i child s sub :
  children kids !! i = Some child →
  fn child = Ok (Restyled s) →
  walk fuel fn (childNodesOf (setStyle s child)) O = Ok sub →
  walk (S fuel) fn kids i
  = walk fuel fn (splice i [withChildNodes (setStyle s child) sub] kids) (S i).
Proof. intros Hc Hfn Hsub. simpl. by rewrite Hc, Hfn; cbn [mbind outcome_bind]; rewrite Hsub. Qed.

Lemma walk_untouched fuel fn kids i child sub :
  children kids !! i = Some child →
  fn child = Ok Untouched →
  walk fuel fn (childNodesOf child) O = Ok sub →
  walk (S fuel) fn kids i
  = walk fuel fn (splice i [withChildNodes child sub] kids) (S i).
Proof. intros Hc Hfn Hsub. simpl. by rewrite Hc, Hfn; cbn [mbind outcome_bind]; rewrite Hsub. Qed.

Lemma walk_throws fuel fn kids i child e :
  children kids !! i = Some child →
  fn child = Throw e →
  walk (S fuel) fn kids i = Throw e.
Proof. intros Hc Hfn. simpl. by rewrite Hc, Hfn. Qed.

Lemma removeDefaultStyles_throws n e :
  nonDefaultStylesOf (cssText n) = Throw e → removeDefaultStyles n = Throw e.
Proof. intros Hs. unfold removeDefaultStyles. by rewrite Hs. Qed.

Lemma removeDefaultStyles_plain n :
  getAttribute "style" (attributesOf n) = None →
  removeDefaultStyles n = Ok (Restyled EmptyString).
Proof.
  intros Hs. unfold removeDefaultStyles, cssText. rewrite Hs.
  change (nonDefaultStylesOf EmptyString) with (@Ok string EmptyString).
  reflexivity.
Qed.

Lemma removeDefaultStyles_empty n :
  cssText n = EmptyString → removeDefaultStyles n = Ok (Restyled EmptyString).
Proof.
  intros Hs. unfold removeDefaultStyles. rewrite Hs.
  change (nonDefaultStylesOf EmptyString) with (@Ok string EmptyString).
  reflexivity.
Qed.

Lemma unwrapIfBare_returns n : returns (unwrapIfBare n).
Proof. by eexists. Qed.

Lemma unwrapSpansWithNoStylesAndAtrrs_returns html :
  returns (unwrapSpansWithNoStylesAndAtrrs html).
Proof.
  unfold unwrapSpansWithNoStylesAndAtrrs.
  destruct (applyToAllSuccessors_outcome (parseFragment "div" html) unwrapIfBare)
    as [[r ->]|(n & e & Hn & _)]; [by eexists|discriminate].
Qed.

(** The inline filters return, unless the style declarations of some
    element make [getStylesEntries] throw. *)
Lemma filterInlineHTML_outcome html pws :
  returns (filterInlineHTML html pws)
  ∨ ∃ n e, nonDefaultStylesOf (cssText n) = Throw e
           ∧ filterInlineHTML html pws = Throw e.
Proof.
  unfold filterInlineHTML, removeDefaultStylesFromAllElements.
  destruct (applyToAllSuccessors_outcome (parseFragment "div" html) removeDefaultStyles)
    as [[r ->]|(n & e & Hn & ->)].
  - left. cbn [mbind outcome_bind]. apply unwrapSpansWithNoStylesAndAtrrs_returns.
  - right. exists n, e. split; [|done].
    unfold removeDefaultStyles in Hn.
    destruct (nonDefaultStylesOf (cssText n)); cbn in Hn; [discriminate|].
    by injection Hn as ->.
Qed.

(** *** Routes *)

Lemma delimitedContent_found mode HTML plainText :
  mode ≠ INLINE →
  occursIn "<!-- wp:" (if truthy HTML then HTML else plainText) →
  delimitedContent mode HTML plainText
  = Some (if truthy HTML then HTML else plainText).
Proof.
  intros Hm Hocc. unfold delimitedContent.
  rewrite bool_decide_eq_true_2 by done.
  apply indexOf_occurs in Hocc.
  destruct (Z.eqb_spec (indexOf (if truthy HTML then HTML else plainText) "<!-- wp:") (-1));
    [contradiction|reflexivity].
Qed.

Lemma delimitedContent_inline HTML plainText :
  delimitedContent INLINE HTML plainText = None.
Proof. reflexivity. Qed.

(** The Markdown step changes the mode from AUTO to INLINE or not at all. *)
Lemma markdownStep_mode HTML plainText mode :
  (markdownStep HTML plainText mode).2 = mode
  ∨ (mode = AUTO ∧ (markdownStep HTML plainText mode).2 = INLINE).
Proof.
  unfold markdownStep.
  destruct (truthy plainText && (negb (truthy HTML) || isPlain HTML)); [|by left].
  destruct (bool_decide (mode = AUTO)) eqn:Em; simpl; [|by left].
  apply bool_decide_eq_true_1 in Em.
  match goal with |- context [if ?c then _ else _] => destruct c end; simpl; auto.
Qed.

Lemma routeOf_inline o :
  opt_mode o = Some INLINE →
  ∃ html, routeOf o = ToInline html.
Proof.
  intros Hm. unfold routeOf. rewrite Hm. simpl.
  destruct (markdownStep _ _ INLINE) as [html mode] eqn:E.
  pose proof (markdownStep_mode
    (normalizeUnicode (stripWrappers (default EmptyString (opt_HTML o))))
    (default EmptyString (opt_plainText o)) INLINE) as Hmode.
  rewrite E in Hmode. simpl in Hmode.
  destruct Hmode as [->|[? _]]; [|discriminate].
  by exists html.
Qed.

Lemma routeOf_blocks o :
  opt_mode o = Some BLOCKS →
  (∃ content, routeOf o = ToGrammar content)
  ∨ (∃ pieces, routeOf o = ToBlocks BLOCKS pieces).
Proof.
  intros Hm. unfold routeOf. rewrite Hm. simpl.
  destruct (delimitedContent BLOCKS _ _) as [content|]; [left; by eexists|].
  destruct (markdownStep _ _ BLOCKS) as [html mode] eqn:E.
  pose proof (markdownStep_mode
    (normalizeUnicode (stripWrappers (default EmptyString (opt_HTML o))))
    (default EmptyString (opt_plainText o)) BLOCKS) as Hmode.
  rewrite E in Hmode. simpl in Hmode.
  destruct Hmode as [->|[? _]]; [|discriminate].
  right. simpl. by eexists.
Qed.

Lemma finishBlocks_blocks_mode plainText blocks :
  finishBlocks BLOCKS plainText blocks = BlockList blocks.
Proof. by destruct blocks as [|b [|]]. Qed.

(** C1.  When the mode is not INLINE and the markup, as it stands after
    the wrapper markup is stripped, or the plain text when that markup
    is empty, contains the block delimiter [<!-- wp:], the handler takes
    the grammar route: it returns what the grammar-level parser makes of
    that content, and no filter runs. *)
Theorem pasteHandler_block_delimiters (o : pasteOptions) :
  let mode := default AUTO (opt_mode o) in
  let HTML := stripWrappers (default EmptyString (opt_HTML o)) in
  let plainText := default EmptyString (opt_plainText o) in
  let content := if truthy HTML then HTML else plainText in
  mode ≠ INLINE →
  occursIn "<!-- wp:" content →
  routeOf o = ToGrammar content
  ∧ pasteHandler o = Ok (BlockList (parseWithGrammar content)).
Proof.
  intros mode HTML plainText content Hm Hocc.
  assert (Hr : routeOf o = ToGrammar content).
  { unfold routeOf. fold mode HTML plainText.
    by rewrite (delimitedContent_found mode HTML plainText Hm Hocc). }
  split; [done|]. unfold pasteHandler. by rewrite Hr.
Qed.

(** C2.  The mode fixes the type of the result.  With mode INLINE the
    handler hands back the outcome of the inline filters: it never
    returns a list of blocks, what it returns is a string, and it does
    return one unless the style declarations of an element make
    [getStylesEntries] throw.  With mode BLOCKS it returns a list of
    blocks, never a string. *)
Theorem pasteHandler_result_by_mode (o : pasteOptions) :
  (opt_mode o = Some INLINE →
     (∃ html, pasteHandler o
              = InlineString <$> filterInlineHTML html (opt_preserveWhiteSpace o))
     ∧ (∀ r, pasteHandler o = Ok r → ∃ s, r = InlineString s)
     ∧ (∀ blocks, pasteHandler o ≠ Ok (BlockList blocks))
     ∧ ((∃ s, pasteHandler o = Ok (InlineString s))
        ∨ ∃ n e, nonDefaultStylesOf (cssText n) = Throw e
                 ∧ pasteHandler o = Throw e))
  ∧ (opt_mode o = Some BLOCKS →
     (∃ blocks, pasteHandler o = Ok (BlockList blocks))
     ∧ (∀ s, pasteHandler o ≠ Ok (InlineString s))).
Proof.
  split; intros Hm.
  - destruct (routeOf_inline o Hm) as [html Hr].
    unfold pasteHandler. rewrite Hr.
    split; [by exists html|].
    destruct (filterInlineHTML_outcome html (opt_preserveWhiteSpace o))
      as [[s ->]|(n & e & Hn & ->)]; simpl.
    + split; [intros r [= <-]; by exists s|].
      split; [intros blocks; discriminate|]. left. by exists s.
    + split; [intros r; discriminate|].
      split; [intros blocks; discriminate|]. right. by exists n, e.
  - unfold pasteHandler.
    destruct (routeOf_blocks o Hm) as [[content ->]|[pieces ->]].
    + split; [by eexists | intros s; discriminate].
    + rewrite finishBlocks_blocks_mode.
      split; [by eexists | intros s; discriminate].
Qed.
(** *** The Markdown step *)

Lemma markdownStep_to_inline HTML plainText :
  plainText ≠ EmptyString →
  HTML = EmptyString ∨ isPlain HTML = true →
  ¬ occursIn LF plainText →
  ¬ beginsWith "<p>" plainText →
  beginsWith "<p>" (markdownConverter plainText) →
  markdownStep HTML plainText AUTO = (markdownConverter plainText, INLINE).
Proof.
  intros Hp Hh Hlf Hnp Hmp. unfold markdownStep.
  apply truthy_nonempty in Hp. rewrite Hp.
  assert (negb (truthy HTML) || isPlain HTML = true) as ->.
  { destruct Hh as [->| ->]; [reflexivity | apply orb_true_r]. }
  apply indexOf_absent_iff in Hlf. rewrite Hlf.
  apply indexOf_zero in Hmp. rewrite Hmp.
  destruct (Z.eqb_spec (indexOf plainText "<p>") 0) as [H0|H0].
  - apply indexOf_zero in H0. contradiction.
  - reflexivity.
Qed.

(** A single line of plain text, with no markup to speak of and no
    block delimiter in it, goes the inline route as the paragraph that
    the Markdown converter makes of it. *)
Lemma routeOf_single_line (o : pasteOptions) :
  let HTML := stripWrappers (default EmptyString (opt_HTML o)) in
  let plainText := default EmptyString (opt_plainText o) in
  default AUTO (opt_mode o) = AUTO →
  delimitedContent AUTO HTML plainText = None →
  plainText ≠ EmptyString →
  normalizeUnicode HTML = EmptyString ∨ isPlain (normalizeUnicode HTML) = true →
  ¬ occursIn LF plainText →
  ¬ beginsWith "<p>" plainText →
  beginsWith "<p>" (markdownConverter plainText) →
  routeOf o = ToInline (markdownConverter plainText).
Proof.
  intros HTML plainText Hm Hd Hp Hh Hlf Hnp Hmp.
  unfold routeOf. fold HTML plainText. rewrite Hm, Hd.
  by rewrite (markdownStep_to_inline _ _ Hp Hh Hlf Hnp Hmp).
Qed.

(** The scenario of the spec, with the surroundings spelled out: the
    converter wraps the line in a paragraph, the filters leave the
    paragraph [s1] as it is, and the browser parses and prints it. *)
Lemma hello_world_inline (s1 : string) :
  markdownConverter "hello world" = "<p>hello world</p>" →
  normalizeUnicode EmptyString = EmptyString →
  parseFragment "div" "<p>hello world</p>" = [Element "p" [] [Text "hello world"]] →
  cssSerialize EmptyString = EmptyString →
  serializeFragment [Element "p" [("style", EmptyString)] [Text "hello world"]] = s1 →
  deepFilterHTML s1 [googleDocsUIDRemover; phrasingContentReducer; commentRemover] None = s1 →
  deepFilterHTML s1 [htmlFormattingRemover; brRemover] None = s1 →
  parseFragment "div" s1 = [Element "p" [("style", EmptyString)] [Text "hello world"]] →
  serializeFragment [Text "hello world"] = "hello world" →
  pasteHandler {| opt_HTML := Some EmptyString; opt_plainText := Some "hello world";
                  opt_mode := Some AUTO; opt_tagName := None;
                  opt_preserveWhiteSpace := false |}
  = Ok (InlineString "hello world").
Proof.
  intros Hmd Hnorm Hparse Hcss Hser Hf1 Hf2 Hparse1 Hser1.
  unfold pasteHandler. rewrite routeOf_single_line; first last.
  { cbn [opt_plainText default from_option id]. rewrite Hmd. by exists "hello world</p>". }
  { apply strip_prefix_None. reflexivity. }
  { apply indexOf_absent_iff. reflexivity. }
  { left. exact Hnorm. }
  { discriminate. }
  { reflexivity. }
  { reflexivity. }
  cbn [opt_plainText opt_preserveWhiteSpace default from_option id]. rewrite Hmd.
  unfold filterInlineHTML, removeDefaultStylesFromAllElements. rewrite Hparse.
  assert (Hwalk : applyToAllSuccessors [Element "p" [] [Text "hello world"]]
                    removeDefaultStyles
                  = Ok [Element "p" [("style", EmptyString)] [Text "hello world"]]).
  { unfold applyToAllSuccessors.
    change (S (forest_size [Element "p" [] [Text "hello world"]])) with 3%nat.
    rewrite (walk_restyled _ _ _ _ (Element "p" [] [Text "hello world"])
               EmptyString [Text "hello world"]);
      [|reflexivity|by apply removeDefaultStyles_plain|by apply walk_done].
    cbn [setStyle setAttribute withChildNodes splice isElement app].
    rewrite Hcss. by apply walk_done. }
  rewrite Hwalk. cbn [mbind outcome_bind]. rewrite Hser, Hf1, Hf2.
  unfold unwrapSpansWithNoStylesAndAtrrs. rewrite Hparse1.
  assert (Hunwrap : applyToAllSuccessors
                      [Element "p" [("style", EmptyString)] [Text "hello world"]]
                      unwrapIfBare
                    = Ok [Text "hello world"]).
  { unfold applyToAllSuccessors.
    change (S (forest_size [Element "p" [("style", EmptyString)] [Text "hello world"]]))
      with 3%nat.
    rewrite (walk_unwrapped _ _ _ _
               (Element "p" [("style", EmptyString)] [Text "hello world"]));
      [by apply walk_done|reflexivity|].
    assert (Hc : cssText (Element "p" [("style", EmptyString)] [Text "hello world"])
                 = EmptyString) by exact Hcss.
    unfold unwrapIfBare, hasNoStylesOrAttrs. rewrite Hc. reflexivity. }
  rewrite Hunwrap. cbn [mbind outcome_bind fmap outcome_fmap]. by rewrite Hser1.
Qed.

(** C3.  With plain text present, markup that is empty or plain, mode
    AUTO, no line break in the plain text, no [<p>] at its start and
    [<p>] at the start of the converted markup, the Markdown step sets
    the mode to INLINE, and the handler, once past the delimiter check,
    returns the outcome of the inline filters.  With the surroundings
    of the spec's scenario, the paste of "hello world" yields that
    string. *)
Theorem single_line_plain_text_is_inline :
  (∀ o : pasteOptions,
     let HTML := normalizeUnicode (stripWrappers (default EmptyString (opt_HTML o))) in
     let plainText := default EmptyString (opt_plainText o) in
     default AUTO (opt_mode o) = AUTO →
     plainText ≠ EmptyString →
     HTML = EmptyString ∨ isPlain HTML = true →
     ¬ occursIn LF plainText →
     ¬ beginsWith "<p>" plainText →
     beginsWith "<p>" (markdownConverter plainText) →
     markdownStep HTML plainText AUTO = (markdownConverter plainText, INLINE)
     ∧ (delimitedContent AUTO (stripWrappers (default EmptyString (opt_HTML o)))
                         plainText = None →
        pasteHandler o
        = InlineString <$> filterInlineHTML (markdownConverter plainText)
                                            (opt_preserveWhiteSpace o)))
  ∧ (∀ s1 : string,
       markdownConverter "hello world" = "<p>hello world</p>" →
       normalizeUnicode EmptyString = EmptyString →
       parseFragment "div" "<p>hello world</p>" = [Element "p" [] [Text "hello world"]] →
       cssSerialize EmptyString = EmptyString →
       serializeFragment [Element "p" [("style", EmptyString)] [Text "hello world"]] = s1 →
       deepFilterHTML s1 [googleDocsUIDRemover; phrasingContentReducer; commentRemover] None = s1 →
       deepFilterHTML s1 [htmlFormattingRemover; brRemover] None = s1 →
       parseFragment "div" s1 = [Element "p" [("style", EmptyString)] [Text "hello world"]] →
       serializeFragment [Text "hello world"] = "hello world" →
       pasteHandler {| opt_HTML := Some EmptyString; opt_plainText := Some "hello world";
                       opt_mode := Some AUTO; opt_tagName := None;
                       opt_preserveWhiteSpace := false |}
       = Ok (InlineString "hello world")).
Proof.
  split.
  - intros o HTML plainText Hm Hp Hh Hlf Hnp Hmp. split.
    + by apply markdownStep_to_inline.
    + intros Hd. unfold pasteHandler.
      by rewrite (routeOf_single_line o Hm Hd Hp Hh Hlf Hnp Hmp).
  - apply hello_world_inline.
Qed.

(** *** htmlToBlocks *)

Lemma findTransform_none (transforms : list rawTransform) predicate :
  Forall (λ r, predicate r = false) transforms →
  findTransform transforms predicate = None.
Proof.
  unfold findTransform. induction 1 as [|r l Hr _ IH]; simpl; [done|].
  by rewrite Hr.
Qed.

Lemma htmlToBlock_fallback rawTransforms n :
  Forall (λ r, isMatch r n = false) rawTransforms →
  htmlToBlock rawTransforms n
  = Some (createBlock "core/html" (getBlockAttributes "core/html" (outerHTML n))).
Proof.
  intros Hno. unfold htmlToBlock.
  by rewrite (findTransform_none rawTransforms (λ r, isMatch r n) Hno).
Qed.

(** C4.  A top-level element that no raw transform matches comes out
    of [htmlToBlocks] as a [core/html] block, at the place of the
    element, and the block survives [compact]; with an attribute
    extractor that stores the markup under one key, the markup of the
    element is all the block holds.  A lone [<foo>bar</foo>] yields
    one such block, with that markup. *)
Theorem htmlToBlocks_falls_back_to_html (key html : string)
    (rawTransforms : list rawTransform) :
  (∀ m, getBlockAttributes "core/html" m = [(key, AStr m)]) →
  (∀ i n,
     children (parseFragment "body" html) !! i = Some n →
     Forall (λ r, isMatch r n = false) rawTransforms →
     htmlToBlocks html rawTransforms !! i
     = Some (Some (Block "core/html" [(key, AStr (outerHTML n))] []))
     ∧ Block "core/html" [(key, AStr (outerHTML n))] []
       ∈ compact (htmlToBlocks html rawTransforms))
  ∧ (let foo := Element "foo" [] [Text "bar"] in
     parseFragment "body" html = [foo] →
     outerHTML foo = "<foo>bar</foo>" →
     Forall (λ r, isMatch r foo = false) rawTransforms →
     compact (htmlToBlocks html rawTransforms)
     = [Block "core/html" [(key, AStr "<foo>bar</foo>")] []]).
Proof.
  intros Hattrs. split.
  - intros i n Hn Hno.
    assert (Hi : htmlToBlocks html rawTransforms !! i
                 = Some (Some (Block "core/html" [(key, AStr (outerHTML n))] []))).
    { unfold htmlToBlocks. rewrite list_lookup_fmap, Hn. simpl.
      rewrite (htmlToBlock_fallback _ _ Hno). unfold createBlock.
      by rewrite Hattrs. }
    split; [done|].
    unfold compact. apply list_elem_of_omap.
    exists (Some (Block "core/html" [(key, AStr (outerHTML n))] [])).
    split; [|done]. apply list_elem_of_lookup. by exists i.
  - intros foo Hp Ho Hno. unfold htmlToBlocks. rewrite Hp. simpl.
    rewrite (htmlToBlock_fallback _ _ Hno). unfold createBlock.
    by rewrite Hattrs, Ho.
Qed.

(** *** Where the code and its documentation part *)

Lemma routeOf_inline_markup (o : pasteOptions) :
  opt_mode o = Some INLINE →
  default EmptyString (opt_plainText o) = EmptyString →
  routeOf o
  = ToInline (normalizeUnicode (stripWrappers (default EmptyString (opt_HTML o)))).
Proof.
  intros Hm Hp. unfold routeOf. rewrite Hm, Hp.
  change (default AUTO (Some INLINE)) with INLINE.
  rewrite delimitedContent_inline. reflexivity.
Qed.

(** C5.  A declaration whose value holds a semicolon, such as a data
    URL, makes [getStylesEntries] throw, and the handler with it. *)
Theorem pasteHandler_throws_on_semicolon_in_value (html v : string) :
  parseFragment "div" (normalizeUnicode (stripWrappers html))
  = [Element "span" [("style", v)] [Text "x"]] →
  cssSerialize v = dataUrl →
  getStylesEntries dataUrl = Throw (TypeError "values.split is not a function")
  ∧ pasteHandler {| opt_HTML := Some html; opt_plainText := None;
                    opt_mode := Some INLINE; opt_tagName := None;
                    opt_preserveWhiteSpace := false |}
    = Throw (TypeError "values.split is not a function").
Proof.
  intros Hparse Hcss. split; [by vm_compute|].
  unfold pasteHandler. rewrite routeOf_inline_markup by reflexivity.
  change (default EmptyString (opt_HTML _)) with html.
  unfold filterInlineHTML, removeDefaultStylesFromAllElements. rewrite Hparse.
  unfold applyToAllSuccessors.
  change (S (forest_size [Element "span" [("style", v)] [Text "x"]])) with 3%nat.
  assert (Hc : cssText (Element "span" [("style", v)] [Text "x"]) = dataUrl) by exact Hcss.
  rewrite (walk_throws _ _ _ _ (Element "span" [("style", v)] [Text "x"])
             (TypeError "values.split is not a function")); [done|done|].
  apply removeDefaultStyles_throws. rewrite Hc. by vm_compute.
Qed.

(** C7.  An element with an attribute of its own stays: the inline
    filters hand back the markup of a [div]. *)
Theorem filterInlineHTML_keeps_block_element (html s1 : string) :
  let div := Element "div" [("class", "a")] [Text "x"] in
  let div' := Element "div" [("class", "a"); ("style", EmptyString)] [Text "x"] in
  parseFragment "div" html = [div] →
  cssSerialize EmptyString = EmptyString →
  serializeFragment [div'] = s1 →
  deepFilterHTML s1 [googleDocsUIDRemover; phrasingContentReducer; commentRemover] None = s1 →
  deepFilterHTML s1 [htmlFormattingRemover; brRemover] None = s1 →
  parseFragment "div" s1 = [div'] →
  filterInlineHTML html false = Ok (serializeFragment [div']).
Proof.
  intros div div' Hparse Hcss Hser Hf1 Hf2 Hparse1.
  unfold filterInlineHTML, removeDefaultStylesFromAllElements. rewrite Hparse.
  assert (Hwalk : applyToAllSuccessors [div] removeDefaultStyles = Ok [div']).
  { unfold applyToAllSuccessors. change (S (forest_size [div])) with 3%nat.
    rewrite (walk_restyled _ _ _ _ div EmptyString [Text "x"]);
      [|reflexivity|by apply removeDefaultStyles_plain|by apply walk_done].
    unfold div. cbn [setStyle setAttribute withChildNodes splice isElement app].
    change (String.eqb "class" "style") with false. cbv iota.
    rewrite Hcss. by apply walk_done. }
  rewrite Hwalk. cbn [mbind outcome_bind]. rewrite Hser, Hf1, Hf2.
  unfold unwrapSpansWithNoStylesAndAtrrs. rewrite Hparse1.
  assert (Hkeep : applyToAllSuccessors [div'] unwrapIfBare = Ok [div']).
  { unfold applyToAllSuccessors. change (S (forest_size [div'])) with 3%nat.
    assert (Hc : cssText div' = EmptyString) by exact Hcss.
    rewrite (walk_untouched _ _ _ _ div' [Text "x"]);
      [by apply walk_done|reflexivity| |by apply walk_done].
    unfold unwrapIfBare, hasNoStylesOrAttrs. rewrite Hc. reflexivity. }
  rewrite Hkeep. cbn [mbind outcome_bind]. by rewrite Hser.
Qed.

(** C9.  An element without style or attributes is not always
    unwrapped: once [strong] is unwrapped, the live collection has
    [em] at the index just visited, and the loop passes it by.  The
    same happens to the first element inside an unwrapped one. *)
Theorem unwrap_passes_by_next_element :
  hasNoStylesOrAttrs (Element "em" [] [Text "b"]) = true
  ∧ applyToAllSuccessors
      [Element "strong" [] [Text "a"]; Element "em" [] [Text "b"]] unwrapIfBare
    = Ok [Text "a"; Element "em" [] [Text "b"]]
  ∧ applyToAllSuccessors
      [Element "strong" [] [Element "em" [] [Text "x"]]] unwrapIfBare
    = Ok [Element "em" [] [Text "x"]]
  ∧ ∀ html,
      parseFragment "div" html
      = [Element "strong" [] [Text "a"]; Element "em" [] [Text "b"]] →
      unwrapSpansWithNoStylesAndAtrrs html
      = Ok (serializeFragment [Text "a"; Element "em" [] [Text "b"]]).
Proof.
  assert (H2 : applyToAllSuccessors
      [Element "strong" [] [Text "a"]; Element "em" [] [Text "b"]] unwrapIfBare
    = Ok [Text "a"; Element "em" [] [Text "b"]]) by reflexivity.
  split; [reflexivity|]. split; [exact H2|]. split; [reflexivity|].
  intros html Hp. unfold unwrapSpansWithNoStylesAndAtrrs. by rewrite Hp, H2.
Qed.

(** *** The end of the block pipeline *)

(** C8, amended.  With mode AUTO, one block from the pipeline, a block
    type that opts in to inline paste, and plain text that, once
    trimmed, is not empty and has no line break, the handler returns
    the content of the block, stripped to the phrasing schema, as a
    string. *)
Theorem single_inlineable_block_is_inline (o : pasteOptions)
    (pieces : list piece) (b : block) :
  let trimmedPlainText := trim (default EmptyString (opt_plainText o)) in
  routeOf o = ToBlocks AUTO pieces →
  blocksOfPieces pieces = [b] →
  hasBlockSupport (blockName_of b) "__unstablePasteTextInline" false = true →
  trimmedPlainText ≠ EmptyString →
  ¬ occursIn LF trimmedPlainText →
  pasteHandler o
  = Ok (InlineString (removeInvalidHTML (getBlockContent b)
                        (getPhrasingContentSchema "paste"))).
Proof.
  intros trimmed Hr Hb Hs Ht Hlf. unfold pasteHandler. rewrite Hr, Hb.
  unfold finishBlocks. rewrite Hs. fold trimmed.
  apply truthy_nonempty in Ht. apply indexOf_absent_iff in Hlf.
  by rewrite Ht, Hlf.
Qed.

(** When the trimmed plain text is empty or has a line break, the
    block stays. *)
Lemma single_block_stays (o : pasteOptions) (pieces : list piece) (b : block) :
  let trimmedPlainText := trim (default EmptyString (opt_plainText o)) in
  routeOf o = ToBlocks AUTO pieces →
  blocksOfPieces pieces = [b] →
  trimmedPlainText = EmptyString ∨ occursIn LF trimmedPlainText →
  pasteHandler o = Ok (BlockList [b]).
Proof.
  intros trimmed Hr Hb Ht. unfold pasteHandler. rewrite Hr, Hb.
  unfold finishBlocks. fold trimmed.
  destruct (bool_decide (AUTO = AUTO) && hasBlockSupport _ _ _); [|done].
  destruct Ht as [->|Hlf]; [done|].
  apply indexOf_occurs in Hlf.
  destruct (Z.eqb_spec (indexOf trimmed LF) (-1)); [contradiction|].
  by rewrite andb_false_r.
Qed.

End PasteFacts.

(** ** The term-tree filter *)

Section TermFilterFacts.

Import TermSelector.

Variable toLowerCase : string → string.

Abbreviation matchTerms := (matchTermsForFilter toLowerCase).

Lemma term_induction (P : term → Prop) :
  (∀ id name parent c, Forall P c → P (Term id name parent c)) →
  ∀ t, P t.
Proof.
  intros Hstep. fix IH 1. intros [id name parent c]. apply Hstep.
  induction c as [|t c IHc]; constructor; [apply IH | exact IHc].
Qed.

Lemma represents_unfold h id name parent c l :
  represents h (Term id name parent c) l
  ↔ ∃ a ls, h !! l = Some (TermObject id name parent a)
      ∧ h !! a = Some (ArrayObject (VRef <$> ls))
      ∧ Forall2 (represents h) c ls.
Proof.
  simpl. split; intros (a & ls & Hl & Ha & Hall); exists a, ls;
    (split; [done|split; [done|]]).
  - clear Ha. revert ls Hall. induction c as [|t c IH]; intros [|l' ls] Hall;
      [constructor|done|done|].
    destruct Hall as [Ht Hall]. constructor; [done|by apply IH].
  - clear Ha. induction Hall; [done|by split].
Qed.

Lemma represents_weaken h h' t l :
  h ⊆ h' → represents h t l → represents h' t l.
Proof.
  intros Hsub. revert l. induction t as [id name parent c IH] using term_induction.
  intros l (a & ls & Hl & Ha & Hall)%represents_unfold. apply represents_unfold.
  exists a, ls. split; [by eapply lookup_weaken|]. split; [by eapply lookup_weaken|].
  clear Ha Hl. induction Hall as [|t l' c ls Ht Hall IHall]; [constructor|].
  inversion IH; subst. constructor; [by auto|by apply IHall].
Qed.

(** A term is kept exactly when the filter leaves a tree of it. *)
Lemma filtered_kept filterValue t :
  is_Some (filtered toLowerCase filterValue t) ↔ kept toLowerCase filterValue t = true.
Proof.
  induction t as [id name parent c IH] using term_induction. simpl.
  assert (Hc : (0 <? length (omap (filtered toLowerCase filterValue) c))%nat
               = existsb (kept toLowerCase filterValue) c).
  { induction IH as [|t c Ht _ IHc]; [done|]. simpl.
    destruct (filtered toLowerCase filterValue t) as [t'|] eqn:E.
    - rewrite (proj1 Ht) by (by eexists). done.
    - destruct (kept toLowerCase filterValue t) eqn:K; [|done].
      destruct (proj2 Ht eq_refl) as [? [=]]. }
  rewrite <- Hc.
  destruct (nameContains toLowerCase filterValue name
            || (0 <? length (omap (filtered toLowerCase filterValue) c))%nat);
    split; done.
Qed.

Lemma alloc_spec c (h : heap) :
  h !! (alloc c h).1 = None ∧ (alloc c h).2 = <[(alloc c h).1 := c]> h.
Proof.
  unfold alloc. simpl. split; [|done].
  apply not_elem_of_dom, is_fresh.
Qed.

Lemma alloc_subseteq c (h : heap) : h ⊆ (alloc c h).2.
Proof.
  destruct (alloc_spec c h) as [Hn ->]. by apply insert_subseteq.
Qed.

Lemma leaves_weaken filterValue (hb h0 h h' h1 : heap) t r :
  h0 ⊆ h → h' ⊆ h1 →
  leaves toLowerCase filterValue hb h h' t r →
  leaves toLowerCase filterValue hb h0 h1 t r.
Proof.
  intros H0 H1. unfold leaves.
  destruct (filtered toLowerCase filterValue t) as [t'|]; [|done].
  intros (l' & -> & Hn & Hrep). exists l'. split; [done|].
  split; [by eapply lookup_weaken_None|].
  intros h'' Hb Hag. apply Hrep; [done|]. intros k Hk [x Hx].
  rewrite Hx. rewrite Hag.
  - by eapply lookup_weaken.
  - by eapply lookup_weaken_None.
  - exists x. by eapply lookup_weaken.
Qed.

(** [map] over the children, each call meeting its specification. *)
Lemma mapArray_spec fuel filterValue (hb : heap) (c : list term) :
  Forall (λ t, ∀ (h : heap) l, hb ⊆ h → represents hb t l →
            ∃ r h', matchTerms fuel filterValue l h = Ok (r, h')
                    ∧ h ⊆ h' ∧ leaves toLowerCase filterValue hb h h' t r) c →
  ∀ ls (h : heap), hb ⊆ h → Forall2 (represents hb) c ls →
    ∃ rs h', mapArray (matchTerms fuel filterValue) (VRef <$> ls) h = Ok (rs, h')
             ∧ h ⊆ h'
             ∧ Forall2 (leaves toLowerCase filterValue hb h h') c rs.
Proof.
  induction 1 as [|t c Ht _ IH]; intros ls h Hb Hall.
  - inversion Hall; subst. exists [], h. by repeat split.
  - inversion Hall as [|? l ? ls' Hl Hls]; subst.
    rewrite fmap_cons. cbn [mapArray].
    destruct (Ht h l Hb Hl) as (r & h1 & -> & H01 & Hr).
    cbn [mbind outcome_bind].
    destruct (IH ls' h1 (transitivity Hb H01) Hls) as (rs & h2 & -> & H12 & Hrs).
    cbn [mbind outcome_bind].
    exists (r :: rs), h2. split; [done|]. split; [by etrans|].
    constructor.
    + by apply (leaves_weaken filterValue hb h h h1 h2).
    + eapply Forall2_impl; [exact Hrs|]. intros t' r' Hl'.
      by apply (leaves_weaken filterValue hb h h1 h2 h2).
Qed.

(** [filter] keeps the references: the roots of the filtered children. *)
Lemma kept_references filterValue (hb h h' : heap) (c : list term) rs :
  Forall2 (leaves toLowerCase filterValue hb h h') c rs →
  ∃ ls', List.filter isRef rs = VRef <$> ls'
       ∧ Forall2 (λ t' l', h !! l' = None
                   ∧ ∀ h'' : heap, hb ⊆ h'' →
                       (∀ k, h !! k = None → is_Some (h' !! k) → h'' !! k = h' !! k) →
                       represents h'' t' l')
                 (omap (filtered toLowerCase filterValue) c) ls'.
Proof.
  induction 1 as [|t r c rs Hr _ (ls' & Hf & Hall)]; [by exists []|].
  unfold leaves in Hr. simpl.
  destruct (filtered toLowerCase filterValue t) as [t'|].
  - destruct Hr as (l' & -> & Hn & Hrep). exists (l' :: ls'). simpl.
    split; [by rewrite Hf|]. by constructor.
  - subst r. exists ls'. by split.
Qed.
Lemma height_children (c : list term) :
  Forall (λ t, (height t ≤ foldr Nat.max O (height <$> c))%nat) c.
Proof.
  induction c as [|t c IH]; constructor; rewrite fmap_cons; cbn [foldr]; [lia|].
  eapply Forall_impl; [exact IH|]. cbv beta. intros. lia.
Qed.

Lemma matchTerms_spec filterValue (hb : heap) t :
  filterValue ≠ EmptyString →
  ∀ fuel (h : heap) l,
    (height t ≤ fuel)%nat → hb ⊆ h → represents hb t l →
    ∃ r h', matchTerms fuel filterValue l h = Ok (r, h')
            ∧ h ⊆ h'
            ∧ leaves toLowerCase filterValue hb h h' t r
            ∧ shallowClone h h' t l r.
Proof.
  intros Hfv. induction t as [id name parent c IH] using term_induction.
  intros [|fuel] h l Hfuel Hb Hrep; [simpl in Hfuel; lia|].
  apply represents_unfold in Hrep as (a & ls & Hl & Ha & Hall).
  cbn [matchTermsForFilter].
  destruct (String.eqb_spec EmptyString filterValue) as [<-|_]; [done|].
  rewrite (lookup_weaken _ _ _ _ Hl Hb).
  destruct (alloc_spec (TermObject id name parent a) h) as [Hfresh Hh1].
  destruct (alloc (TermObject id name parent a) h) as [term h1]. simpl in Hfresh, Hh1.
  subst h1.
  assert (Hat : a ≠ term).
  { intros ->. pose proof (lookup_weaken _ _ _ _ Ha Hb). congruence. }
  rewrite lookup_insert_ne by done.
  rewrite (lookup_weaken _ _ _ _ Ha Hb).
  destruct Hall as [|t l0 c ls Ht Hall].
  - (* no children: the clone shares the empty array *)
    cbn [fmap list_fmap length Nat.ltb Nat.leb mbind outcome_bind].
    unfold leaves, shallowClone. cbn [filtered omap list_omap length Nat.ltb Nat.leb termChildren].
    assert (Hsub : h ⊆ <[term:=TermObject id name parent a]> h) by (by apply insert_subseteq).
    destruct (nameContains toLowerCase filterValue name); cbn [orb].
    + eexists _, _. split; [done|]. split; [done|]. split.
      * exists term. split; [done|]. split; [done|]. intros h'' Hb'' Hag.
        apply represents_unfold. exists a, []. split; [|split; [|constructor]].
        -- rewrite Hag; [by rewrite lookup_insert_eq|done|].
           rewrite lookup_insert_eq. by eexists.
        -- by eapply lookup_weaken.
      * intros l' [= <-]. exists id, name, parent, a, a.
        split; [by eapply lookup_weaken|]. split; [by rewrite lookup_insert_eq|done].
    + eexists _, _. split; [done|]. split; [done|]. split; [done|].
      intros l' [=].
  - (* children: map, filter, and a new array for the clone *)
    set (h1 := <[term:=TermObject id name parent a]> h).
    assert (H01 : h ⊆ h1) by (by apply insert_subseteq).
    assert (Hb1 : hb ⊆ h1) by (by etrans).
    assert (Hkids : Forall (λ t, ∀ (h : heap) l, hb ⊆ h → represents hb t l →
              ∃ r h', matchTerms fuel filterValue l h = Ok (r, h')
                      ∧ h ⊆ h' ∧ leaves toLowerCase filterValue hb h h' t r)
              (t :: c)).
    { pose proof (height_children (t :: c)) as Hh.
      cbn [height] in Hfuel.
      eapply Forall_impl; [apply Forall_and; split; [exact IH|exact Hh]|].
      cbv beta. intros t' [Ht' Hle] h' l' Hb' Hr'.
      destruct (Ht' fuel h' l') as (r & h'' & ? & ? & ? & _); [lia|done|done|].
      by exists r, h''. }
    destruct (mapArray_spec fuel filterValue hb (t :: c) Hkids (l0 :: ls) h1 Hb1)
      as (rs & h2 & Hmap & H12 & Hrs); [by constructor|].
    destruct (Nat.ltb_spec 0 (length (VRef <$> l0 :: ls))) as [_|Hbad];
      [|rewrite length_fmap in Hbad; simpl in Hbad; lia].
    rewrite Hmap. cbn [mbind outcome_bind].
    destruct (alloc_spec (ArrayObject rs) h2) as [Hf3 Hh3].
    destruct (alloc (ArrayObject rs) h2) as [a1 h3]. simpl in Hf3, Hh3. subst h3.
    destruct (alloc_spec (ArrayObject (List.filter isRef rs))
                (<[a1:=ArrayObject rs]> h2)) as [Hf4 Hh4].
    destruct (alloc (ArrayObject (List.filter isRef rs)) (<[a1:=ArrayObject rs]> h2))
      as [a2 h4]. simpl in Hf4, Hh4. subst h4.
    set (h3 := <[a1:=ArrayObject rs]> h2) in *.
    set (h4 := <[a2:=ArrayObject (List.filter isRef rs)]> h3).
    set (h5 := <[term:=TermObject id name parent a2]> h4).
    assert (H23 : h2 ⊆ h3) by (by apply insert_subseteq).
    assert (H34 : h3 ⊆ h4) by (by apply insert_subseteq).
    assert (H04 : h ⊆ h4) by (by repeat (etrans; [eassumption|])).
    assert (H05 : h ⊆ h5) by (by apply insert_subseteq_r).
    assert (Hterm1 : h1 !! term = Some (TermObject id name parent a))
      by apply lookup_insert_eq.
    assert (Ha2t : a2 ≠ term).
    { intros ->. pose proof (lookup_weaken _ _ _ _ Hterm1 (transitivity H12 H23)).
      congruence. }
    assert (Ha2 : h !! a2 = None) by (by eapply lookup_weaken_None; [|exact (transitivity H01 (transitivity H12 H23))]).
    destruct (kept_references filterValue hb h1 h2 (t :: c) rs Hrs)
      as (ls' & Hkept & Hall').
    assert (Hlen : length (List.filter isRef rs)
                   = length (omap (filtered toLowerCase filterValue) (t :: c))).
    { rewrite Hkept, length_fmap. symmetry. by eapply Forall2_length. }
    cbn [mbind outcome_bind]. rewrite Hlen.
    unfold leaves, shallowClone. cbn [filtered termChildren].
    destruct (nameContains toLowerCase filterValue name
              || (0 <? length (omap (filtered toLowerCase filterValue) (t :: c)))%nat).
    + exists (VRef term), h5. split; [done|]. split; [done|]. split.
      * exists term. split; [done|]. split; [done|]. intros h'' Hb'' Hag.
        apply represents_unfold. exists a2, ls'.
        split; [|split].
        -- rewrite Hag; [by apply lookup_insert_eq|done|].
           unfold h5. rewrite lookup_insert_eq. by eexists.
        -- rewrite Hag; [|done|].
           ++ unfold h5, h4. rewrite lookup_insert_ne by done.
              by rewrite lookup_insert_eq, Hkept.
           ++ unfold h5, h4. rewrite lookup_insert_ne by done.
              rewrite lookup_insert_eq. by eexists.
        -- eapply Forall2_impl; [exact Hall'|]. cbv beta.
           intros t' l' [Hn' Hrep']. apply Hrep'; [done|].
           intros k Hk [x Hx].
           assert (Hkt : k ≠ term) by (intros ->; congruence).
           rewrite Hx. rewrite Hag.
           ++ unfold h5. rewrite lookup_insert_ne by done.
              by eapply lookup_weaken; [|exact (transitivity H23 H34)].
           ++ by eapply lookup_weaken_None.
           ++ exists x. unfold h5. rewrite lookup_insert_ne by done.
              by eapply lookup_weaken; [|exact (transitivity H23 H34)].
      * intros l' [= <-]. exists id, name, parent, a, a2.
        split; [by eapply lookup_weaken|].
        split; [by apply lookup_insert_eq|done].
    + exists VFalse, h5. split; [done|]. split; [done|]. split; [done|].
      intros l' [=].
Qed.
Lemma nameContains_occurs filterValue name :
  nameContains toLowerCase filterValue name = true
  ↔ occursIn (toLowerCase filterValue) (toLowerCase name).
Proof.
  unfold nameContains. rewrite <- indexOf_occurs, negb_true_iff.
  destruct (Z.eqb_spec (indexOf (toLowerCase name) (toLowerCase filterValue)) (-1));
    split; congruence.
Qed.

Lemma keptAsSpecified_children filterValue (c : list term) :
  (fix some (c : list term) : Prop :=
     match c with
     | [] => False
     | t' :: c' => keptAsSpecified toLowerCase filterValue t' ∨ some c'
     end) c
  ↔ ∃ child, child ∈ c ∧ keptAsSpecified toLowerCase filterValue child.
Proof.
  induction c as [|t c IH].
  - split; [done|]. intros (child & Hin & _). by apply elem_of_nil in Hin.
  - rewrite IH. split.
    + intros [Ht|(child & Hin & Hk)].
      * exists t. split; [apply list_elem_of_here|done].
      * exists child. split; [by apply list_elem_of_further|done].
    + intros (child & Hin & Hk). apply elem_of_cons in Hin as [->|Hin].
      * by left.
      * right. by exists child.
Qed.

Lemma kept_as_specified filterValue t :
  kept toLowerCase filterValue t = true
  ↔ keptAsSpecified toLowerCase filterValue t.
Proof.
  induction t as [id name parent c IH] using term_induction.
  change (kept toLowerCase filterValue (Term id name parent c))
    with (nameContains toLowerCase filterValue name
          || existsb (kept toLowerCase filterValue) c).
  change (keptAsSpecified toLowerCase filterValue (Term id name parent c))
    with (occursIn (toLowerCase filterValue) (toLowerCase name)
          ∨ (fix some (c : list term) : Prop :=
               match c with
               | [] => False
               | t' :: c' => keptAsSpecified toLowerCase filterValue t' ∨ some c'
               end) c).
  rewrite orb_true_iff, nameContains_occurs, keptAsSpecified_children,
    existsb_exists.
  split; (intros [Hn|(child & Hin & Hk)]; [by left|right; exists child]).
  - apply list_elem_of_In in Hin. split; [done|].
    rewrite Forall_forall in IH. by apply IH.
  - split; [by apply list_elem_of_In|].
    rewrite Forall_forall in IH. by apply IH.
Qed.

(** C10.  For a filter value that is not empty, the matcher keeps a
    term exactly when the filter value occurs in its name, both taken
    in lower case, or one of its children is kept.  It changes no
    object that was in the store: what it returns for a kept term is a
    new object, the root of the filtered tree, with the identifier,
    name and parent of the original and, for a term with children, a
    new array of the children that were kept. *)
Theorem getFilterMatcher_filters_without_mutation
    (filterValue : string) (h : heap) (t : term) (l : loc) (fuel : nat) :
  filterValue ≠ EmptyString →
  represents h t l →
  (height t ≤ fuel)%nat →
  ∃ r h',
    getFilterMatcher toLowerCase filterValue fuel l h = Ok (r, h')
    ∧ (r ≠ VFalse
       ↔ occursIn (toLowerCase filterValue) (toLowerCase (termName t))
         ∨ ∃ child, child ∈ termChildren t
                    ∧ keptAsSpecified toLowerCase filterValue child)
    ∧ (∀ k x, h !! k = Some x → h' !! k = Some x)
    ∧ (∀ l', r = VRef l' →
         h !! l' = None
         ∧ ∃ t', filtered toLowerCase filterValue t = Some t'
                 ∧ represents h' t' l')
    ∧ shallowClone h h' t l r.
Proof.
  intros Hfv Hrep Hfuel.
  destruct (matchTerms_spec filterValue h t Hfv fuel h l Hfuel (reflexivity h) Hrep)
    as (r & h' & Hrun & Hsub & Hleaves & Hclone).
  exists r, h'. split; [exact Hrun|].
  assert (Hkept : r ≠ VFalse ↔ kept toLowerCase filterValue t = true).
  { rewrite <- filtered_kept. unfold leaves in Hleaves.
    destruct (filtered toLowerCase filterValue t) as [t'|].
    - destruct Hleaves as (l' & -> & _). split; [by eexists|done].
    - subst r. split; [done|]. by intros [? ?]. }
  split; [|split; [|split; [|done]]].
  - rewrite Hkept, kept_as_specified. destruct t as [id name parent c].
    change (keptAsSpecified toLowerCase filterValue (Term id name parent c))
      with (occursIn (toLowerCase filterValue) (toLowerCase name)
            ∨ (fix some (c : list term) : Prop :=
                 match c with
                 | [] => False
                 | t' :: c' => keptAsSpecified toLowerCase filterValue t' ∨ some c'
                 end) c).
    by rewrite keptAsSpecified_children.
  - intros k x Hk. by eapply lookup_weaken.
  - intros l' ->. unfold leaves in Hleaves.
    destruct (filtered toLowerCase filterValue t) as [t'|]; [|done].
    destruct Hleaves as (l'' & [= <-] & Hn & Hr). split; [done|].
    exists t'. split; [done|]. by apply Hr.
Qed.

End TermFilterFacts.

Example filter_fruit_by_app :
  fst <$> TermSelector.getFilterMatcher Demo.toLowerCase "app" 2 1%positive Demo.fruitStore
  = Ok (TermSelector.VRef 5).
Proof. by vm_compute. Qed.
Example filter_fruit_by_pear :
  fst <$> TermSelector.getFilterMatcher Demo.toLowerCase "pear" 2 1%positive Demo.fruitStore
  = Ok TermSelector.VFalse.
Proof. by vm_compute. Qed.
Example filter_fruit_by_name_only :
  (λ r, (r.1, r.2 !! 5%positive, r.2 !! 8%positive, r.2 !! 1%positive))
    <$> TermSelector.getFilterMatcher Demo.toLowerCase "FRU" 2 1%positive Demo.fruitStore
  = Ok (TermSelector.VRef 5,
        Some (TermSelector.TermObject 10 "Fruit" 0 8),
        Some (TermSelector.ArrayObject []),
        Some (TermSelector.TermObject 10 "Fruit" 0 2)).
Proof. by vm_compute. Qed.

(** ** The theorems at work *)

Lemma pasteHandler_block_delimiters_at_paragraph :
  pasteHandler
    (Demo.options
       "<meta charset='utf-8'><!-- wp:paragraph --><p>Hi</p><!-- /wp:paragraph -->"
       "" AUTO)
  = Ok (BlockList
          (parseWithGrammar "<!-- wp:paragraph --><p>Hi</p><!-- /wp:paragraph -->")).
Proof.
  refine (proj2 (pasteHandler_block_delimiters
                   (Demo.options
                      "<meta charset='utf-8'><!-- wp:paragraph --><p>Hi</p><!-- /wp:paragraph -->"
                      "" AUTO) _ _)).
  - discriminate.
  - apply indexOf_occurs. by vm_compute.
Defined.

Lemma pasteHandler_result_by_mode_at_both :
  (∃ html, pasteHandler (Demo.options "" "hello world" INLINE)
           = InlineString <$> filterInlineHTML html false)
  ∧ (∃ blocks, pasteHandler (Demo.options "<p>x</p>" "" BLOCKS) = Ok (BlockList blocks)).
Proof.
  split.
  - exact (proj1 (proj1 (pasteHandler_result_by_mode
                           (Demo.options "" "hello world" INLINE)) eq_refl)).
  - exact (proj1 (proj2 (pasteHandler_result_by_mode
                           (Demo.options "<p>x</p>" "" BLOCKS)) eq_refl)).
Defined.

Lemma single_line_plain_text_is_inline_at_hello :
  markdownStep "" "hello world" AUTO = ("<p>hello world</p>", INLINE)
  ∧ pasteHandler (Demo.options "" "hello world" AUTO) = Ok (InlineString "hello world").
Proof.
  split.
  - refine (proj1 (proj1 single_line_plain_text_is_inline
                     (Demo.options "" "hello world" AUTO) _ _ _ _ _ _)).
    + reflexivity.
    + discriminate.
    + by left.
    + apply indexOf_absent_iff. reflexivity.
    + apply strip_prefix_None. reflexivity.
    + by exists "hello world</p>".
  - exact (proj2 single_line_plain_text_is_inline
             (Demo.serialize [Element "p" [("style", "")] [Text "hello world"]])
             eq_refl eq_refl eq_refl eq_refl eq_refl eq_refl eq_refl eq_refl eq_refl).
Defined.

Lemma htmlToBlocks_falls_back_to_html_at_foo :
  htmlToBlocks "<foo>bar</foo>" getRawTransformations !! 0%nat
  = Some (Some (Block "core/html" [("content", AStr "<foo>bar</foo>")] []))
  ∧ compact (htmlToBlocks "<foo>bar</foo>" getRawTransformations)
    = [Block "core/html" [("content", AStr "<foo>bar</foo>")] []].
Proof.
  pose proof (htmlToBlocks_falls_back_to_html "content" "<foo>bar</foo>"
                getRawTransformations (λ m, eq_refl)) as [Hat Hfoo].
  split.
  - refine (proj1 (Hat 0%nat (Element "foo" [] [Text "bar"]) eq_refl _)).
    repeat constructor.
  - refine (Hfoo eq_refl eq_refl _). repeat constructor.
Defined.

Lemma pasteHandler_throws_on_semicolon_in_value_at_data_url :
  pasteHandler
    (Demo.options (Demo.serialize [Element "span" [("style", dataUrl)] [Text "x"]])
                  "" INLINE)
  = Throw (TypeError "values.split is not a function").
Proof.
  refine (proj2 (pasteHandler_throws_on_semicolon_in_value
                   (Demo.serialize [Element "span" [("style", dataUrl)] [Text "x"]])
                   dataUrl _ _)).
  - by vm_compute.
  - reflexivity.
Defined.

Lemma filterInlineHTML_keeps_block_element_at_div :
  filterInlineHTML (Demo.serialize [Element "div" [("class", "a")] [Text "x"]]) false
  = Ok (Demo.serialize [Element "div" [("class", "a"); ("style", "")] [Text "x"]]).
Proof.
  refine (filterInlineHTML_keeps_block_element
            (Demo.serialize [Element "div" [("class", "a")] [Text "x"]])
            (Demo.serialize [Element "div" [("class", "a"); ("style", "")] [Text "x"]])
            _ _ _ _ _ _); by vm_compute.
Defined.

Lemma unwrap_passes_by_next_element_at_strong_em :
  unwrapSpansWithNoStylesAndAtrrs "<strong>a</strong><em>b</em>"
  = Ok "a<em>b</em>".
Proof.
  refine (proj2 (proj2 (proj2 unwrap_passes_by_next_element))
            "<strong>a</strong><em>b</em>" _).
  by vm_compute.
Defined.

Lemma single_inlineable_block_is_inline_at_paragraph :
  pasteHandler (Demo.options "<p>x</p>" " x " AUTO) = Ok (InlineString "<p>x</p>").
Proof.
  refine (single_inlineable_block_is_inline
            (Demo.options "<p>x</p>" " x " AUTO) [PieceHTML "<p>x</p>"]
            (Block "core/paragraph" [("content", AStr "<p>x</p>")] []) _ _ _ _ _).
  - by vm_compute.
  - by vm_compute.
  - reflexivity.
  - discriminate.
  - apply indexOf_absent_iff. reflexivity.
Defined.

(** C8 as the spec has it fails on plain text made of white space:
    the plain text is not empty and has no line break, and the handler
    returns the block. *)
Lemma blank_plain_text_keeps_the_block :
  ¬ (routeOf Demo.blankPaste = ToBlocks AUTO [PieceHTML "<p>x</p>"] →
     blocksOfPieces [PieceHTML "<p>x</p>"] = [Demo.paragraphX] →
     hasBlockSupport (blockName_of Demo.paragraphX) "__unstablePasteTextInline" false
     = true →
     default EmptyString (opt_plainText Demo.blankPaste) ≠ EmptyString →
     ¬ occursIn LF (default EmptyString (opt_plainText Demo.blankPaste)) →
     pasteHandler Demo.blankPaste
     = Ok (InlineString (removeInvalidHTML (getBlockContent Demo.paragraphX)
                           (getPhrasingContentSchema "paste")))).
Proof.
  intros Hclaim.
  assert (Hrun : pasteHandler Demo.blankPaste = Ok (BlockList [Demo.paragraphX]))
    by (by vm_compute).
  rewrite Hclaim in Hrun; [discriminate|by vm_compute|by vm_compute|reflexivity|discriminate|].
  apply indexOf_absent_iff. reflexivity.
Qed.

Lemma getFilterMatcher_filters_without_mutation_at_fruit :
  ∃ r h',
    TermSelector.getFilterMatcher Demo.toLowerCase "APP" 2 1%positive Demo.fruitStore
    = Ok (r, h')
    ∧ r ≠ TermSelector.VFalse
    ∧ h' !! 1%positive = Demo.fruitStore !! 1%positive.
Proof.
  destruct (getFilterMatcher_filters_without_mutation Demo.toLowerCase "APP"
              Demo.fruitStore Demo.fruit 1%positive 2)
    as (r & h' & Hrun & Hkept & Hsame & _).
  - discriminate.
  - exists 2%positive, [3%positive]. split; [reflexivity|]. split; [reflexivity|].
    split; [|exact I]. exists 4%positive, []. by repeat split.
  - simpl. lia.
  - exists r, h'. split; [exact Hrun|]. split.
    + apply Hkept. right. exists (TermSelector.Term 11 "Apple" 10 []).
      split; [apply list_elem_of_here|]. left.
      apply indexOf_occurs. by vm_compute.
    + by apply Hsame.
Defined.

(** * More of the code *)

(** ** The walk over the live collection, again *)

Section WalkFacts.

Context {browser : Browser}.

Import Reference.

Lemma children_app a b : children (a ++ b) = children a ++ children b.
Proof. unfold children. induction a as [|n a IH]; simpl; [done|]. destruct (isElement n); simpl; by rewrite IH. Qed.

Lemma splice_app pre j repl X :
  splice (length (children pre) + j) repl (pre ++ X) = pre ++ splice j repl X.
Proof.
  induction pre as [|n pre IH]; [done|].
  unfold children in *. simpl. destruct (isElement n); simpl; by rewrite IH.
Qed.

(** Nodes before the index take no part in the rest of the walk. *)
Lemma walk_frame fuel fn pre X j :
  walk fuel fn (pre ++ X) (length (children pre) + j)
  = (pre ++.) <$> walk fuel fn X j.
Proof.
  revert X j. induction fuel as [|fuel IH]; intros X j; [done|].
  cbn [walk]. rewrite children_app, lookup_app_r by lia.
  replace (length (children pre) + j - length (children pre))%nat with j by lia.
  destruct (children X !! j) as [child|]; [|done].
  destruct (fn child) as [[| |]|e]; cbn [mbind outcome_bind]; [| | |done].
  - destruct (walk fuel fn (childNodesOf child) 0) as [sub|e];
      cbn [mbind outcome_bind]; [|done].
    rewrite splice_app. by rewrite <- Nat.add_succ_r, IH.
  - destruct (walk fuel fn (childNodesOf (setStyle style child)) 0) as [sub|e];
      cbn [mbind outcome_bind]; [|done].
    rewrite splice_app. by rewrite <- Nat.add_succ_r, IH.
  - unfold unwrap. rewrite splice_app. by rewrite <- Nat.add_succ_r, IH.
Qed.

Lemma walk_past_element fuel fn n r :
  isElement n = true →
  walk fuel fn (n :: r) 1 = (n ::.) <$> walk fuel fn r 0.
Proof.
  intros En. pose proof (walk_frame fuel fn [n] r 0) as H.
  unfold children in H. cbn [List.filter] in H. rewrite En in H. exact H.
Qed.

Lemma walk_past_leaf fuel fn n r j :
  isElement n = false →
  walk fuel fn (n :: r) j = (n ::.) <$> walk fuel fn r j.
Proof.
  intros En. pose proof (walk_frame fuel fn [n] r j) as H.
  unfold children in H. cbn [List.filter] in H. rewrite En in H. exact H.
Qed.

(** A throw below the child ends the walk. *)
Lemma walk_sub_throws fuel fn kids i child eff e :
  children kids !! i = Some child →
  fn child = Ok eff →
  match eff with
  | Untouched => walk fuel fn (childNodesOf child) O = Throw e
  | Restyled s => walk fuel fn (childNodesOf (setStyle s child)) O = Throw e
  | Unwrapped => False
  end →
  walk (S fuel) fn kids i = Throw e.
Proof.
  intros Hc Hfn Hsub. cbn [walk]. rewrite Hc, Hfn. cbn [mbind outcome_bind].
  destruct eff; [by rewrite Hsub..|done].
Qed.

Lemma restyleNode_element t a kids :
  restyleNode (Element t a kids)
  = (s ← nonDefaultStylesOf (cssText (Element t a kids));
     kids' ← restyleForest kids;
     Ok (withChildNodes (setStyle s (Element t a kids)) kids')).
Proof.
  cbn [restyleNode]. destruct (nonDefaultStylesOf _) as [s|e]; [|done].
  cbn [mbind outcome_bind]. f_equal.
  unfold restyleForest. induction kids as [|k r IH]; [done|].
  cbn [mapM]. destruct (restyleNode k); [|done]. cbn [mbind outcome_bind].
  by rewrite IH.
Qed.

Lemma walk_removeDefaultStyles fuel kids :
  (forest_size kids < fuel)%nat →
  walk fuel removeDefaultStyles kids 0 = restyleForest kids.
Proof.
  revert kids. induction fuel as [|fuel IH]; intros kids Hlt; [lia|].
  induction kids as [|n r IHr]; [done|].
  rewrite forest_size_cons in Hlt. pose proof (node_size_pos n).
  destruct n as [d|d|t a ks].
  - rewrite walk_past_leaf by done.
    rewrite IHr by lia. unfold restyleForest. cbn [mapM restyleNode mbind outcome_bind].
    by destruct (mapM restyleNode r).
  - rewrite walk_past_leaf by done.
    rewrite IHr by lia. unfold restyleForest. cbn [mapM restyleNode mbind outcome_bind].
    by destruct (mapM restyleNode r).
  - set (n := Element t a ks) in *.
    unfold restyleForest. cbn [mapM]. fold (restyleForest r).
    unfold n at 2. rewrite restyleNode_element. fold n.
    assert (Hks : walk fuel removeDefaultStyles ks 0 = restyleForest ks).
    { apply IH. simpl in Hlt. unfold forest_size. lia. }
    assert (Hr : walk fuel removeDefaultStyles r 0 = restyleForest r)
      by (apply IH; lia).
    destruct (nonDefaultStylesOf (cssText n)) as [s|e] eqn:Hs.
    + assert (Hfn : removeDefaultStyles n = Ok (Restyled s)).
      { unfold removeDefaultStyles. by rewrite Hs. }
      cbn [mbind outcome_bind].
      destruct (restyleForest ks) as [sub|e] eqn:Hsub.
      * rewrite (walk_restyled fuel removeDefaultStyles (n :: r) 0 n s sub);
          [|done|done|by rewrite setStyle_childNodes].
        cbn [mbind outcome_bind splice app].
        change (isElement n) with true. cbv iota.
        rewrite walk_past_element, Hr by done. by destruct (restyleForest r).
      * rewrite (walk_sub_throws fuel removeDefaultStyles (n :: r) 0 n
                   (Restyled s) e); [done|done|done|].
        by rewrite setStyle_childNodes.
    + rewrite (walk_throws fuel removeDefaultStyles (n :: r) 0 n e); [done|done|].
      unfold removeDefaultStyles. by rewrite Hs.
Qed.

Lemma applyToAllSuccessors_removeDefaultStyles (kids : list node) :
  applyToAllSuccessors kids removeDefaultStyles = restyleForest kids.
Proof. apply walk_removeDefaultStyles. lia. Qed.

(** X1.  The walk over the live collections comes to an end for every
    callback and every forest, also when the callback unwraps
    elements under the loop: it returns, or it throws what the
    callback threw on some element. *)
Theorem applyToAllSuccessors_terminates (kids : list node) (fn : callback) :
  returns (applyToAllSuccessors kids fn)
  ∨ ∃ n e, fn n = Throw e ∧ applyToAllSuccessors kids fn = Throw e.
Proof. apply applyToAllSuccessors_outcome. Qed.

(** X2.  [removeDefaultStyles] reaches every element of the parsed
    markup once, parents before children and siblings left to right,
    and the shape of the tree is kept: the walk over the live
    collections is the plain recursion over the tree, errors
    included. *)
Theorem removeDefaultStyles_reaches_every_element (kids : list node) :
  applyToAllSuccessors kids removeDefaultStyles = restyleForest kids.
Proof. apply applyToAllSuccessors_removeDefaultStyles. Qed.

Lemma leavesOf_app a b : leavesOf (a ++ b) = leavesOf a ++ leavesOf b.
Proof. unfold leavesOf. apply flat_map_app. Qed.

Lemma leavesOf_element n :
  isElement n = true → leavesOfNode n = leavesOf (childNodesOf n).
Proof. by destruct n. Qed.

Lemma splice_leaves i kids child repl :
  children kids !! i = Some child →
  leavesOf repl = leavesOfNode child →
  leavesOf (splice i repl kids) = leavesOf kids.
Proof.
  intros Hc Hr. revert i Hc. induction kids as [|n r IH]; intros i Hc; [done|].
  unfold children in Hc. cbn [List.filter splice] in *.
  destruct (isElement n) eqn:En.
  - destruct i as [|i].
    + injection Hc as ->. rewrite leavesOf_app, Hr. done.
    + change (leavesOf (n :: splice i repl r))
        with (leavesOfNode n ++ leavesOf (splice i repl r)).
      by rewrite (IH i Hc).
  - change (leavesOf (n :: splice i repl r))
      with (leavesOfNode n ++ leavesOf (splice i repl r)).
    by rewrite (IH i Hc).
Qed.

Lemma walk_leaves fuel fn kids i kids' :
  walk fuel fn kids i = Ok kids' → leavesOf kids' = leavesOf kids.
Proof.
  revert kids i kids'. induction fuel as [|fuel IH]; intros kids i kids'; [done|].
  cbn [walk]. destruct (children kids !! i) as [child|] eqn:Hc;
    [|by intros [= <-]].
  destruct (children_lookup _ _ _ Hc) as (He & _).
  destruct (fn child) as [[| |]|e]; cbn [mbind outcome_bind]; [| | |done].
  - destruct (walk fuel fn (childNodesOf child) 0) as [sub|e] eqn:Hsub;
      cbn [mbind outcome_bind]; [|done].
    intros Hw. rewrite (IH _ _ _ Hw). apply (splice_leaves _ _ child); [done|].
    rewrite (leavesOf_element child He), <- (IH _ _ _ Hsub).
    destruct child; [done..|]. cbn. by rewrite app_nil_r.
  - destruct (walk fuel fn (childNodesOf (setStyle style child)) 0) as [sub|e] eqn:Hsub;
      cbn [mbind outcome_bind]; [|done].
    intros Hw. rewrite (IH _ _ _ Hw). apply (splice_leaves _ _ child); [done|].
    rewrite (leavesOf_element child He), <- (setStyle_childNodes style child),
      <- (IH _ _ _ Hsub).
    destruct child; [done..|]. cbn. by rewrite app_nil_r.
  - intros Hw. rewrite (IH _ _ _ Hw). apply (splice_leaves _ _ child); [done|].
    by rewrite (leavesOf_element child He).
Qed.

(** X3.  Whatever the callback does to the elements, restyle them or
    unwrap them, the walk keeps the text and comment nodes of the
    forest, and their order. *)
Theorem applyToAllSuccessors_keeps_leaves (kids kids' : list node) (fn : callback) :
  applyToAllSuccessors kids fn = Ok kids' →
  leavesOf kids' = leavesOf kids.
Proof. apply walk_leaves. Qed.

End WalkFacts.

(** ** What the inline filters can throw *)

Lemma node_induction (P : node → Prop) :
  (∀ d, P (Text d)) →
  (∀ d, P (Comment d)) →
  (∀ t a kids, Forall P kids → P (Element t a kids)) →
  ∀ n, P n.
Proof.
  intros Ht Hc He. fix IH 1. intros [d|d|t a kids]; [apply Ht|apply Hc|].
  apply He. induction kids as [|k r IHr]; constructor; [apply IH|exact IHr].
Qed.

Lemma everyElement_element P t a kids :
  Reference.everyElementOfNode P (Element t a kids)
  ↔ P (Element t a kids) ∧ Reference.everyElement P kids.
Proof.
  unfold Reference.everyElement. cbn [Reference.everyElementOfNode].
  split; intros [Hp Hall]; (split; [done|]); clear Hp.
  - induction kids as [|k r IH]; [constructor|].
    destruct Hall as [Hk Hr]. constructor; [done|by apply IH].
  - induction Hall; [done|by split].
Qed.

Lemma mapM_returns {A B} (f : A → outcome B) (l : list A) :
  returns (mapM f l) ↔ Forall (λ x, returns (f x)) l.
Proof.
  induction l as [|x r IH]; cbn [mapM].
  - split; [constructor|by eexists].
  - split.
    + intros [ys Hys]. destruct (f x) as [y|e] eqn:Hx; [|done].
      cbn [mbind outcome_bind] in Hys.
      destruct (mapM f r) as [ys'|e] eqn:Hr; [|done].
      constructor; [by eexists|]. apply IH. by eexists.
    + intros Hall. inversion Hall as [|? ? [y Hy] Hr]; subst.
      apply IH in Hr as [ys Hys]. rewrite Hy, Hys. by eexists.
Qed.

Lemma mapM_throws {A B} (f : A → outcome B) (l : list A) e :
  mapM f l = Throw e → ∃ x, x ∈ l ∧ f x = Throw e.
Proof.
  induction l as [|x r IH]; cbn [mapM]; [done|].
  destruct (f x) as [y|e'] eqn:Hx; cbn [mbind outcome_bind].
  - destruct (mapM f r) as [ys|e'] eqn:Hr; cbn [mbind outcome_bind]; [done|].
    intros [= ->]. destruct (IH eq_refl) as (x' & Hin & Hx').
    exists x'. split; [by apply list_elem_of_further|done].
  - intros [= ->]. exists x. split; [apply list_elem_of_here|done].
Qed.

Lemma getStylesEntry_throws styles e :
  getStylesEntry styles = Throw e →
  e = TypeError "values.split is not a function".
Proof.
  unfold getStylesEntry.
  destruct (String.eqb _ "color"); [done|].
  destruct (from_option SStr SEmptyArray _); [done|]. by intros [= <-].
Qed.

Lemma getStylesEntries_throws s e :
  getStylesEntries s = Throw e →
  e = TypeError "values.split is not a function".
Proof.
  unfold getStylesEntries. intros (x & _ & Hx)%mapM_throws.
  by eapply getStylesEntry_throws.
Qed.

Lemma defaultStyles_entries : returns (getStylesEntries defaultStyles).
Proof. by vm_compute; eexists. Qed.

Lemma nonDefaultStylesOf_returns s :
  returns (nonDefaultStylesOf s) ↔ returns (getStylesEntries s).
Proof.
  unfold nonDefaultStylesOf. destruct defaultStyles_entries as [d ->].
  cbn [mbind outcome_bind].
  destruct (getStylesEntries s) as [es|e]; cbn [mbind outcome_bind].
  - split; intros _; by eexists.
  - split; intros [? ?]; done.
Qed.

Lemma nonDefaultStylesOf_throws s e :
  nonDefaultStylesOf s = Throw e →
  e = TypeError "values.split is not a function".
Proof.
  unfold nonDefaultStylesOf. destruct defaultStyles_entries as [d ->].
  cbn [mbind outcome_bind].
  destruct (getStylesEntries s) as [es|e'] eqn:Hs; cbn [mbind outcome_bind]; [done|].
  intros [= <-]. by eapply getStylesEntries_throws.
Qed.

Section InlineErrors.

Context {browser : Browser} {imports : Imports}.

Import Reference.

Lemma restyleNode_returns n :
  returns (restyleNode n)
  ↔ everyElementOfNode (λ e, returns (getStylesEntries (cssText e))) n.
Proof.
  induction n as [d|d|t a kids IH] using node_induction;
    [split; [done|by eexists]..|].
  rewrite restyleNode_element, everyElement_element, <- nonDefaultStylesOf_returns.
  assert (Hk : returns (restyleForest kids)
               ↔ everyElement (λ e, returns (getStylesEntries (cssText e))) kids).
  { unfold restyleForest, everyElement. rewrite mapM_returns.
    rewrite !Forall_forall in *. split; intros H x Hx; by apply IH, H. }
  rewrite <- Hk.
  destruct (nonDefaultStylesOf (cssText (Element t a kids))) as [s|e];
    cbn [mbind outcome_bind].
  - destruct (restyleForest kids) as [sub|e]; cbn [mbind outcome_bind].
    + split; [intros _; split; by eexists|intros _; by eexists].
    + split; [intros [? ?]; done|intros [_ [? ?]]; done].
  - split; [intros [? ?]; done|intros [[? ?] _]; done].
Qed.

(** X4.  The inline filters return exactly when the style declarations
    of every element of the parsed markup, at every depth, go through
    [getStylesEntries] without a throw. *)
Theorem filterInlineHTML_returns_iff (html : string) (preserveWhiteSpace : bool) :
  returns (filterInlineHTML html preserveWhiteSpace)
  ↔ everyElement (λ e, returns (getStylesEntries (cssText e)))
                 (parseFragment "div" html).
Proof.
  unfold filterInlineHTML, removeDefaultStylesFromAllElements.
  rewrite applyToAllSuccessors_removeDefaultStyles.
  unfold everyElement. rewrite <- (Forall_iff _ _ _ restyleNode_returns).
  unfold restyleForest. rewrite <- mapM_returns.
  destruct (mapM restyleNode (parseFragment "div" html)) as [kids|e];
    cbn [mbind outcome_bind].
  - split; [intros _; by eexists|intros _].
    apply unwrapSpansWithNoStylesAndAtrrs_returns.
  - split; intros [? ?]; done.
Qed.

(** X5.  The handler throws on the inline route only, and what it
    throws is the type error of [getStylesEntries]. *)
Theorem pasteHandler_throws_only_inline (o : pasteOptions) (e : jsError) :
  pasteHandler o = Throw e →
  e = TypeError "values.split is not a function"
  ∧ ∃ html, routeOf o = ToInline html.
Proof.
  unfold pasteHandler. destruct (routeOf o) as [content|html|mode pieces]; [done| |done].
  intros Hthrow. split; [|by exists html].
  destruct (filterInlineHTML_outcome html (opt_preserveWhiteSpace o))
    as [[s Hs]|(n & e' & Hn & He)]; rewrite ?Hs, ?He in Hthrow; [done|].
  injection Hthrow as <-. by eapply nonDefaultStylesOf_throws.
Qed.

End InlineErrors.

Lemma omap_length_le {A B} (f : A → option B) (l : list A) :
  (length (omap f l) ≤ length l)%nat.
Proof.
  induction l as [|x r IH]; [done|].
  change (omap f (x :: r))
    with (match f x with Some y => y :: omap f r | None => omap f r end).
  destruct (f x); cbn [length]; lia.
Qed.

(** ** The routes of the handler *)

Section RouteFacts.

Context {browser : Browser} {imports : Imports}.

Lemma delimitedContent_Some mode HTML plainText content :
  delimitedContent mode HTML plainText = Some content
  ↔ mode ≠ INLINE
    ∧ content = (if truthy HTML then HTML else plainText)
    ∧ occursIn "<!-- wp:" content.
Proof.
  unfold delimitedContent. destruct (bool_decide_reflect (mode ≠ INLINE)) as [Hm|Hm].
  - destruct (Z.eqb_spec (indexOf (if truthy HTML then HTML else plainText) "<!-- wp:") (-1))
      as [Hi|Hi]; cbn [negb].
    + split; [done|]. intros (_ & -> & Ho). by apply indexOf_occurs in Ho.
    + split.
      * intros [= <-]. split; [done|]. split; [done|]. by apply indexOf_occurs.
      * by intros (_ & -> & _).
  - split; [done|]. by intros (? & _).
Qed.

(** X6.  The handler takes the grammar route exactly when the mode is
    not INLINE and the block delimiter occurs in the stripped markup,
    or in the plain text when that markup is empty; the content parsed
    is that markup or plain text. *)
Theorem grammar_route_iff (o : pasteOptions) (content : string) :
  routeOf o = ToGrammar content
  ↔ default AUTO (opt_mode o) ≠ INLINE
    ∧ content
      = (if truthy (stripWrappers (default EmptyString (opt_HTML o)))
         then stripWrappers (default EmptyString (opt_HTML o))
         else default EmptyString (opt_plainText o))
    ∧ occursIn "<!-- wp:" content.
Proof.
  rewrite <- delimitedContent_Some. unfold routeOf.
  destruct (delimitedContent _ _ _) as [c|].
  - split; by intros [= ->].
  - split; [|done].
    destruct (markdownStep _ _ _) as [html mode].
    destruct (bool_decide (mode = INLINE)); [done|].
    by destruct (bool_decide (mode = AUTO) && _ && _).
Qed.

(** X7.  On the block route the mode is the one the caller gave, AUTO
    when none was given, and it is not INLINE: the heuristics move a
    paste from AUTO to the inline route and never change a mode
    otherwise. *)
Theorem block_route_keeps_mode (o : pasteOptions) (mode : pasteMode)
    (pieces : list piece) :
  routeOf o = ToBlocks mode pieces →
  mode = default AUTO (opt_mode o) ∧ mode ≠ INLINE.
Proof.
  unfold routeOf. destruct (delimitedContent _ _ _); [done|].
  pose proof (markdownStep_mode
    (normalizeUnicode (stripWrappers (default EmptyString (opt_HTML o))))
    (default EmptyString (opt_plainText o)) (default AUTO (opt_mode o))) as Hm.
  destruct (markdownStep _ _ _) as [html m]. simpl in Hm.
  destruct (bool_decide_reflect (m = INLINE)) as [->|Hni]; [done|].
  destruct (bool_decide (m = AUTO) && _ && _); [done|].
  intros [= <- _]. split; [|done]. by destruct Hm as [->|[_ ->]].
Qed.

(** X8.  The Markdown step turns AUTO into INLINE exactly under the
    five conditions of the source; any other mode it leaves alone. *)
Theorem markdownStep_inline_iff (HTML plainText : string) :
  ((markdownStep HTML plainText AUTO).2 = INLINE
   ↔ plainText ≠ EmptyString
     ∧ (HTML = EmptyString ∨ isPlain HTML = true)
     ∧ ¬ occursIn LF plainText
     ∧ ¬ beginsWith "<p>" plainText
     ∧ beginsWith "<p>" (markdownConverter plainText))
  ∧ ∀ mode, mode ≠ AUTO → (markdownStep HTML plainText mode).2 = mode.
Proof.
  split.
  - split.
    + unfold markdownStep.
      destruct (truthy plainText) eqn:Hp; cbn [andb]; [|done].
      destruct (negb (truthy HTML) || isPlain HTML) eqn:Hh; [|done].
      cbn [bool_decide decide_rel pasteMode_eq_dec decide andb].
      destruct (Z.eqb_spec (indexOf plainText LF) (-1)) as [Hlf|Hlf]; cbn [andb]; [|done].
      destruct (Z.eqb_spec (indexOf plainText "<p>") 0) as [Hnp|Hnp]; cbn [negb andb]; [done|].
      destruct (Z.eqb_spec (indexOf (markdownConverter plainText) "<p>") 0) as [Hmp|Hmp];
        [|done].
      intros _. split; [by apply truthy_nonempty|]. split.
      { apply orb_true_iff in Hh as [Hh|Hh]; [left|by right].
        destruct HTML; [done|discriminate]. }
      split; [by apply indexOf_absent_iff|].
      split; [by rewrite <- indexOf_zero|by apply indexOf_zero].
    + intros (Hp & Hh & Hlf & Hnp & Hmp).
      by rewrite (markdownStep_to_inline _ _ Hp Hh Hlf Hnp Hmp).
  - intros mode Hm.
    destruct (markdownStep_mode HTML plainText mode) as [?|[? _]]; done.
Qed.

(** X9.  The end of the block pipeline returns a string exactly when
    the mode is AUTO, there is one block, its type opts in to inline
    paste, and the trimmed plain text is not empty and has no line
    break; in every other case it returns the blocks as they are. *)
Theorem finishBlocks_inline_iff (mode : pasteMode) (plainText : string)
    (blocks : list block) :
  ((∃ s, finishBlocks mode plainText blocks = InlineString s)
   ↔ mode = AUTO
     ∧ trim plainText ≠ EmptyString
     ∧ ¬ occursIn LF (trim plainText)
     ∧ ∃ b, blocks = [b]
            ∧ hasBlockSupport (blockName_of b) "__unstablePasteTextInline" false = true)
  ∧ ((∀ s, finishBlocks mode plainText blocks ≠ InlineString s) →
     finishBlocks mode plainText blocks = BlockList blocks).
Proof.
  unfold finishBlocks.
  destruct blocks as [|b [|b' r]];
    [split; [split; [by intros [? ?]|by intros (_ & _ & _ & ? & ? & _)]|done]| |
     split; [split; [by intros [? ?]|by intros (_ & _ & _ & ? & ? & _)]|done]].
  destruct (bool_decide_reflect (mode = AUTO)) as [->|Hm]; cbn [andb].
  - destruct (hasBlockSupport _ _ _) eqn:Hs.
    + destruct (truthy (trim plainText)) eqn:Ht; cbn [andb].
      * destruct (Z.eqb_spec (indexOf (trim plainText) LF) (-1)) as [Hlf|Hlf].
        -- split; [|intros Hno; by specialize (Hno _ eq_refl)].
           split; [intros _|by eexists].
           split; [done|]. split; [by apply truthy_nonempty|].
           split; [by apply indexOf_absent_iff|]. by exists b.
        -- split; [|done]. split; [by intros [? ?]|].
           intros (_ & _ & Hno & _). by apply indexOf_absent_iff in Hno.
      * split; [|done]. split; [by intros [? ?]|].
        intros (_ & Hne & _). apply truthy_nonempty in Hne. congruence.
    + split; [|done]. split; [by intros [? ?]|].
      intros (_ & _ & _ & b0 & [= <-] & Hs'). congruence.
  - split; [|done]. split; [by intros [? ?]|]. by intros (? & _).
Qed.

(** ** htmlToBlocks, again *)

(** X10.  [htmlToBlocks] yields at most one block for each top-level
    element, and none for markup whose top-level nodes are all text
    or comments. *)
Theorem htmlToBlocks_one_per_element (html : string)
    (rawTransforms : list rawTransform) :
  (length (compact (htmlToBlocks html rawTransforms))
   ≤ length (children (parseFragment "body" html)))%nat
  ∧ (Forall (λ n, isElement n = false) (parseFragment "body" html) →
     htmlToBlocks html rawTransforms = []).
Proof.
  unfold htmlToBlocks, compact. split.
  - etrans; [apply omap_length_le|]. by rewrite length_fmap.
  - intros Hall. replace (children (parseFragment "body" html)) with (@nil node); [done|].
    unfold children. induction Hall as [|n r Hn _ IH]; [done|].
    simpl. by rewrite Hn.
Qed.

(** X11.  When the rule found for an element has a transform function,
    the block is what that function returns; the attribute extractor
    is not asked, and an element whose transform returns nothing
    leaves no block behind. *)
Theorem htmlToBlocks_transform_decides (html : string)
    (rawTransforms : list rawTransform) (i : nat) (n : node)
    (r : rawTransform) (f : node → option block) :
  children (parseFragment "body" html) !! i = Some n →
  findTransform rawTransforms (λ r, isMatch r n) = Some r →
  transform r = Some f →
  htmlToBlocks html rawTransforms !! i = Some (f n)
  ∧ (children (parseFragment "body" html) = [n] → f n = None →
     compact (htmlToBlocks html rawTransforms) = []).
Proof.
  intros Hn Hr Hf.
  assert (Hb : htmlToBlock rawTransforms n = f n).
  { unfold htmlToBlock. by rewrite Hr, Hf. }
  unfold htmlToBlocks. split.
  - by rewrite list_lookup_fmap, Hn; simpl; rewrite Hb.
  - intros -> Hnone. simpl. by rewrite Hb, Hnone.
Qed.

End RouteFacts.

(** ** Stripping, on text without markup *)

Lemma char_eq_lt ci b : char_eq ci "<" b = true → b = "<"%char.
Proof.
  destruct ci; unfold char_eq.
  - destruct b as [[] [] [] [] [] [] [] []]; vm_compute; congruence.
  - by intros ->%Ascii.eqb_eq.
Qed.

Lemma lit_lt ci p s :
  Forall (λ c, c ≠ "<"%char) (String.list_ascii_of_string s) →
  lit ci (String "<" p) s = None.
Proof.
  destruct s as [|b s]; [done|]. cbn [String.list_ascii_of_string lit].
  intros Hb. inversion Hb as [|? ? Hne _]; subst.
  destruct (char_eq ci "<" b) eqn:E; [|done]. by apply char_eq_lt in E.
Qed.

Lemma star_none {R} c pos s (k : cursor → option R) :
  Forall (λ c, c ≠ "<"%char) (String.list_ascii_of_string s) →
  (∀ pos' s', Forall (λ c, c ≠ "<"%char) (String.list_ascii_of_string s') →
              k (pos', s') = None) →
  star c pos s k = None.
Proof.
  intros Hs Hk. revert pos. induction s as [|a r IH]; intros pos; cbn [star].
  - by apply Hk.
  - cbn [String.list_ascii_of_string] in Hs. inversion Hs; subst.
    destruct (in_class c a); [rewrite IH by done|]; by apply Hk.
Qed.

Lemma no_match_without_lt ci pos s :
  Forall (λ c, c ≠ "<"%char) (String.list_ascii_of_string s) →
  match_at false metaTag (pos, s) = None
  ∧ match_at ci windowsStart (pos, s) = None
  ∧ match_at ci windowsEnd (pos, s) = None.
Proof.
  intros Hs. unfold match_at, metaTag, windowsStart, windowsEnd.
  split; [|split].
  - cbn [cat run fst snd]. by rewrite lit_lt.
  - cbn [cat run fst snd]. destruct (Nat.eqb pos 0); [|done].
    apply star_none; [done|]. intros pos' s' Hs'. by rewrite lit_lt.
  - cbn [cat run fst snd]. by rewrite !lit_lt.
Qed.

Lemma replace_all_go_id fuel ci r f pos s :
  (∀ pos' s', Forall (λ c, c ≠ "<"%char) (String.list_ascii_of_string s') →
              match_at ci r (pos', s') = None) →
  Forall (λ c, c ≠ "<"%char) (String.list_ascii_of_string s) →
  replace_all_go fuel ci r f pos s = s.
Proof.
  intros Hr. revert pos s. induction fuel as [|fuel IH]; intros pos s Hs; [done|].
  cbn [replace_all_go]. rewrite Hr by done.
  destruct s as [|c s]; [done|]. cbn [String.list_ascii_of_string] in Hs.
  inversion Hs; subst. by rewrite IH.
Qed.

Lemma replace_first_go_none ci r by_ pos s :
  (∀ pos' s', Forall (λ c, c ≠ "<"%char) (String.list_ascii_of_string s') →
              match_at ci r (pos', s') = None) →
  Forall (λ c, c ≠ "<"%char) (String.list_ascii_of_string s) →
  replace_first_go ci r by_ pos s = None.
Proof.
  intros Hr. revert pos. induction s as [|c s IH]; intros pos Hs;
    cbn [replace_first_go]; rewrite Hr by done; [done|].
  cbn [String.list_ascii_of_string] in Hs. inversion Hs; subst. by rewrite IH.
Qed.

Lemma lacks_lt s :
  ¬ occursIn "<" s → Forall (λ c, c ≠ "<"%char) (String.list_ascii_of_string s).
Proof.
  induction s as [|c r IH]; intros Hno; [constructor|].
  cbn [String.list_ascii_of_string]. constructor.
  - intros ->. apply Hno. by exists EmptyString, r.
  - apply IH. intros (pre & post & ->). apply Hno. by exists (String c pre), post.
Qed.

(** X12.  Text in which no [<] occurs goes through the three stripping
    statements of the handler unchanged. *)
Theorem stripWrappers_keeps_plain_text (s : string) :
  ¬ occursIn "<" s → stripWrappers s = s.
Proof.
  intros Hs%lacks_lt. unfold stripWrappers, replace_all, replace_first.
  rewrite (replace_all_go_id _ false metaTag);
    [|intros pos' s' Hs'; by destruct (no_match_without_lt false pos' s' Hs') as (? & _)|done].
  rewrite (replace_first_go_none true windowsStart);
    [|intros pos' s' Hs'; by destruct (no_match_without_lt true pos' s' Hs') as (_ & ? & _)|done].
  cbn [default from_option id].
  rewrite (replace_first_go_none true windowsEnd);
    [done|intros pos' s' Hs'; by destruct (no_match_without_lt true pos' s' Hs') as (_ & _ & ?)|done].
Qed.

(** ** Declarations that make getStylesEntries throw *)

Lemma append_empty_r s : s +:+ EmptyString = s.
Proof.
  induction s as [|c r IH]; [done|].
  change (String c (r +:+ EmptyString) = String c r). by rewrite IH.
Qed.

Lemma append_assoc' a b c : (a +:+ b) +:+ c = a +:+ b +:+ c.
Proof.
  induction a as [|x a IH]; [done|].
  change (String x ((a +:+ b) +:+ c) = String x (a +:+ b +:+ c)). by rewrite IH.
Qed.

Lemma occursIn_tail sep c r :
  ¬ beginsWith sep (String c r) → occursIn sep (String c r) → occursIn sep r.
Proof.
  intros Hb (pre & post & Heq). destruct pre as [|c' pre].
  - exfalso. apply Hb. by exists post.
  - injection Heq as -> ->. by exists pre, post.
Qed.

Lemma split_go_without fuel sep cur s :
  (strlen s < fuel)%nat →
  ¬ occursIn sep s →
  split_go fuel sep cur s = [cur +:+ s].
Proof.
  revert cur s. induction fuel as [|fuel IH]; intros cur s Hf Hno; [lia|].
  destruct s as [|c r]; cbn [split_go]; [by rewrite append_empty_r|].
  destruct (strip_prefix sep (String c r)) as [rest|] eqn:E.
  - exfalso. apply Hno. apply strip_prefix_spec in E. by exists EmptyString, rest.
  - rewrite IH.
    + by rewrite append_assoc'.
    + simpl in Hf. lia.
    + intros (pre & post & ->). apply Hno. by exists (String c pre), post.
Qed.

Lemma split_go_nonempty fuel sep cur s : split_go fuel sep cur s ≠ [].
Proof.
  revert cur s. induction fuel as [|fuel IH]; intros cur s; [done|].
  destruct s as [|c r]; cbn [split_go]; [done|].
  destruct (strip_prefix sep (String c r)); [done|apply IH].
Qed.

Lemma split_go_with fuel sep cur s :
  (strlen s < fuel)%nat →
  sep ≠ EmptyString →
  occursIn sep s →
  is_Some (split_go fuel sep cur s !! 1%nat).
Proof.
  revert cur s. induction fuel as [|fuel IH]; intros cur s Hf Hsep Hocc; [lia|].
  destruct s as [|c r]; cbn [split_go].
  - destruct Hocc as (pre & post & Heq). destruct pre; [|done].
    destruct sep; [done|discriminate].
  - destruct (strip_prefix sep (String c r)) as [rest|] eqn:E.
    + pose proof (split_go_nonempty fuel sep EmptyString rest).
      destruct (split_go fuel sep EmptyString rest); [done|by eexists].
    + apply IH; [simpl in Hf; lia|done|].
      apply (occursIn_tail sep c r); [by apply strip_prefix_None|done].
Qed.

(** X13.  One declaration makes [getStylesEntries] throw exactly when,
    once trimmed, it has no colon and is not the bare word [color];
    a declaration block goes through exactly when none of its
    non-empty pieces between semicolons is of that kind. *)
Theorem getStylesEntry_throws_iff (styles : string) :
  ((∃ e, getStylesEntry styles = Throw e)
   ↔ ¬ occursIn ":" (trim styles) ∧ trim styles ≠ "color")
  ∧ ∀ stylesString,
      returns (getStylesEntries stylesString)
      ↔ Forall (λ piece, occursIn ":" (trim piece) ∨ trim piece = "color")
               (List.filter truthy
                  (split (replace_all false parenthesised (replace_char " " "_")
                                      stylesString) ";")).
Proof.
  assert (Hone : ∀ styles, (∃ e, getStylesEntry styles = Throw e)
                   ↔ ¬ occursIn ":" (trim styles) ∧ trim styles ≠ "color").
  { clear styles. intros styles. unfold getStylesEntry, split.
    set (t := trim styles).
    destruct (indexOf t ":" =? -1) eqn:Ei.
    - apply Z.eqb_eq, indexOf_absent_iff in Ei.
      rewrite split_go_without by (done || lia).
      cbn [head default from_option lookup list_lookup]. change (EmptyString +:+ t) with t.
      unfold id.
      destruct (String.eqb_spec t "color") as [Hc|Hc].
      + split; [by intros [? ?]|by intros [_ ?]].
      + split; [done|intros _; by eexists].
    - apply Z.eqb_neq, indexOf_occurs in Ei.
      destruct (split_go_with (S (strlen t)) ":" EmptyString t) as [v Hv];
        [lia|done|done|]. rewrite Hv. cbn [from_option].
      split; [|by intros [? _]].
      destruct (String.eqb _ "color"); by intros [? ?]. }
  split; [apply Hone|].
  intros stylesString. unfold getStylesEntries. rewrite mapM_returns.
  apply Forall_iff. intros piece.
  specialize (Hone piece).
  destruct (getStylesEntry piece) as [entry|e].
  - split; [intros _|by eexists].
    destruct (indexOf (trim piece) ":" =? -1) eqn:Ei.
    + apply Z.eqb_eq, indexOf_absent_iff in Ei.
      destruct (String.eqb_spec (trim piece) "color") as [Hc|Hc]; [by right|].
      destruct (proj2 Hone (conj Ei Hc)) as [? ?]. done.
    + apply Z.eqb_neq, indexOf_occurs in Ei. by left.
  - split; [by intros [? ?]|]. intros Hok.
    destruct (proj1 Hone (ex_intro _ e eq_refl)) as [Hno Hc].
    by destruct Hok.
Qed.

(** ** The term selector: selection, sorting and counting *)

Section TermTreeFacts.

Import TermSelector TermTree.

Lemma indexOfId_lower_bound a x : -1 ≤ indexOfId a x.
Proof.
  induction a as [|y r IH]; simpl; [lia|].
  destruct (Z.eqb y x); [lia|]. destruct (Z.eqb_spec (indexOfId r x) (-1)); lia.
Qed.

Lemma indexOfId_found a x : indexOfId a x ≠ -1 ↔ x ∈ a.
Proof.
  induction a as [|y r IH]; simpl.
  - split; [lia|by intros ?%elem_of_nil].
  - rewrite elem_of_cons. destruct (Z.eqb_spec y x) as [->|Hne].
    + split; [by left|lia].
    + pose proof (indexOfId_lower_bound r x).
      destruct (Z.eqb_spec (indexOfId r x) (-1)) as [Hi|Hi].
      * split; [lia|]. intros [?|Hin]; [congruence|]. by apply IH in Hin.
      * split; [intros _; right; by apply IH|lia].
Qed.

Lemma hasTerm_spec a x : negb (Z.eqb (indexOfId a x) (-1)) = true ↔ x ∈ a.
Proof.
  rewrite <- indexOfId_found. destruct (Z.eqb_spec (indexOfId a x) (-1)); simpl; split;
    try done; try lia.
Qed.

(** X14.  A tree has a selection exactly when the identifier of one of
    its terms, at any depth, is among the selected ones. *)
Theorem treeHasSelection_iff (terms : list Z) (t : term) :
  treeHasSelection terms t = true
  ↔ ∃ p, p ∈ termNodes t ∧ p.1 ∈ terms.
Proof.
  induction t as [id name parent c IH] using term_induction.
  cbn [treeHasSelection termNodes].
  assert (Hc : (0 <? length (List.filter (λ child : bool, child)
                               (List.map (treeHasSelection terms) c)))%nat = true
               ↔ ∃ p, p ∈ flat_map termNodes c ∧ p.1 ∈ terms).
  { induction IH as [|t c Ht _ IHc]; cbn [List.map List.filter flat_map].
    - split; [done|]. by intros (p & ?%elem_of_nil & _).
    - setoid_rewrite elem_of_app. destruct (treeHasSelection terms t).
      + split; [intros _|done]. destruct (proj1 Ht eq_refl) as (p & Hp & Hin).
        exists p. split; [by left|done].
      + rewrite IHc. split.
        * intros (p & Hp & Hin). exists p. split; [by right|done].
        * intros (p & [Hp|Hp] & Hin); [|by exists p].
          assert (false = true) by (apply Ht; by exists p). done. }
  destruct (negb (Z.eqb (indexOfId terms id) (-1))) eqn:Hid.
  - split; [intros _|done]. exists (id, name). split; [apply list_elem_of_here|].
    by apply hasTerm_spec.
  - destruct (0 <? length _)%nat eqn:Hany.
    + split; [intros _|done]. destruct (proj1 Hc eq_refl) as (p & Hp & Hin).
      exists p. split; [by apply list_elem_of_further|done].
    + split; [done|]. intros (p & Hp & Hin).
      apply elem_of_cons in Hp as [->|Hp].
      * apply hasTerm_spec in Hin. simpl in Hin. congruence.
      * assert (false = true) by (apply Hc; by exists p). done.
Qed.

Lemma compare_selected terms x y :
  treeHasSelection terms x = true →
  Z.leb (termOrChildIsSelected terms x y) 0 = true.
Proof.
  intros Hx. unfold termOrChildIsSelected. rewrite Hx.
  by destruct (treeHasSelection terms y).
Qed.

Lemma compare_unselected terms x y :
  treeHasSelection terms x = false →
  Z.leb (termOrChildIsSelected terms x y) 0 = negb (treeHasSelection terms y).
Proof.
  intros Hx. unfold termOrChildIsSelected. rewrite Hx.
  by destruct (treeHasSelection terms y).
Qed.

Lemma insertSorted_unselected terms x (A B : list term) :
  treeHasSelection terms x = false →
  Forall (λ t, treeHasSelection terms t = true) A →
  Forall (λ t, treeHasSelection terms t = false) B →
  insertSorted (termOrChildIsSelected terms) x (A ++ B) = A ++ x :: B.
Proof.
  intros Hx HA HB. induction HA as [|z A Hz _ IH]; cbn [app insertSorted].
  - destruct HB as [|y B Hy _]; [done|]. cbn [insertSorted].
    by rewrite compare_unselected, Hy.
  - by rewrite compare_unselected, Hz, IH.
Qed.

Lemma insertSorted_partition terms x (l : list term) :
  insertSorted (termOrChildIsSelected terms) x
    (List.filter (treeHasSelection terms) l
     ++ List.filter (λ t, negb (treeHasSelection terms t)) l)
  = List.filter (treeHasSelection terms) (x :: l)
    ++ List.filter (λ t, negb (treeHasSelection terms t)) (x :: l).
Proof.
  cbn [List.filter]. destruct (treeHasSelection terms x) eqn:Hx; cbn [negb].
  - rewrite <- app_comm_cons.
    destruct (List.filter _ l ++ List.filter _ l) as [|y r] eqn:E; [done|].
    cbn [insertSorted]. by rewrite compare_selected.
  - apply insertSorted_unselected; [done| |].
    + apply Forall_forall. intros t Ht%list_elem_of_In.
      by apply filter_In in Ht as [_ ?].
    + apply Forall_forall. intros t Ht%list_elem_of_In.
      apply filter_In in Ht as [_ Ht]. by destruct (treeHasSelection terms t).
Qed.

(** X15.  [sortBySelected] puts the top-level trees that have a
    selection before those that have none and keeps the order inside
    each group; it neither adds nor drops a tree, and it does not
    look below the top level. *)
Theorem sortBySelected_partitions (termsTree : list term) (terms : list Z) :
  sortBySelected termsTree terms
  = List.filter (treeHasSelection terms) termsTree
    ++ List.filter (λ t, negb (treeHasSelection terms t)) termsTree.
Proof.
  unfold sortBySelected, sort. induction termsTree as [|x l IH]; [done|].
  cbn [fold_right]. rewrite IH. apply insertSorted_partition.
Qed.

(** X16.  [onChange] toggles one term: the term is selected afterwards
    exactly when it was not before, every other term keeps its state,
    and toggling a term that was not selected twice gives back the
    selection as it was. *)
Theorem onChange_toggles (terms : list Z) (termId : Z) :
  (termId ∈ onChange terms termId ↔ termId ∉ terms)
  ∧ (∀ x, x ≠ termId → x ∈ onChange terms termId ↔ x ∈ terms)
  ∧ (termId ∉ terms → onChange (onChange terms termId) termId = terms).
Proof.
  assert (Hw : ∀ a x y, y ∈ without a x ↔ y ∈ a ∧ y ≠ x).
  { intros a x y. unfold without. rewrite !list_elem_of_In, filter_In.
    destruct (Z.eqb_spec y x); simpl; split; intros [? ?]; (done || by split). }
  unfold onChange. destruct (negb (Z.eqb (indexOfId terms termId) (-1))) eqn:Hh.
  - apply hasTerm_spec in Hh. split; [|split].
    + rewrite Hw. split; [by intros [_ ?]|done].
    + intros x Hx. rewrite Hw. split; [by intros [? _]|done].
    + done.
  - assert (Hn : termId ∉ terms).
    { intros Hin%hasTerm_spec. congruence. }
    split; [|split].
    + split; [done|]. intros _. apply elem_of_app. right. apply list_elem_of_here.
    + intros x Hx. rewrite elem_of_app, list_elem_of_singleton. split; [|by left].
      by intros [?|?].
    + intros _.
      assert (negb (Z.eqb (indexOfId (terms ++ [termId]) termId) (-1)) = true) as ->.
      { apply hasTerm_spec, elem_of_app. right. apply list_elem_of_here. }
      unfold without. rewrite List.filter_app. cbn [List.filter].
      rewrite Z.eqb_refl. cbn [negb]. rewrite app_nil_r.
      clear Hh. induction terms as [|y r IH]; [done|]. cbn [List.filter].
      apply not_elem_of_cons in Hn as [Hy Hr].
      destruct (Z.eqb_spec y termId); [congruence|]. cbn [negb]. by rewrite IH.
Qed.

End TermTreeFacts.

(** ** The term selector: what the filter leaves *)

Section FilteredFacts.

Import TermSelector TermTree.

Variable toLowerCase : string → string.

Abbreviation filteredBy := (filtered toLowerCase).

Lemma omap_cons {A B} (f : A → option B) x (l : list A) :
  omap f (x :: l) = match f x with Some y => y :: omap f l | None => omap f l end.
Proof. done. Qed.

Lemma omap_fixed {A} (f : A → option A) (l : list A) :
  Forall (λ x, f x = Some x) l → omap f l = l.
Proof.
  induction 1 as [|x l Hx _ IH]; [done|]. by rewrite omap_cons, Hx, IH.
Qed.

Lemma filtered_unfold filterValue id name parent c :
  filteredBy filterValue (Term id name parent c)
  = if nameContains toLowerCase filterValue name
       || (0 <? length (omap (filteredBy filterValue) c))%nat
    then Some (Term id name parent (omap (filteredBy filterValue) c))
    else None.
Proof. done. Qed.

Lemma termNodes_filtered filterValue t t' :
  filteredBy filterValue t = Some t' → termNodes t' `sublist_of` termNodes t.
Proof.
  revert t'. induction t as [id name parent c IH] using term_induction.
  intros t'. rewrite filtered_unfold.
  destruct (_ || _); [|done]. intros [= <-]. cbn [termNodes].
  apply sublist_skip. induction IH as [|x l Hx _ IHl]; [done|].
  rewrite omap_cons. cbn [flat_map].
  destruct (filteredBy filterValue x) as [x'|].
  - cbn [flat_map]. apply sublist_app; [by apply Hx|done].
  - by apply sublist_inserts_l.
Qed.

Lemma termLeaves_filtered filterValue t t' :
  filteredBy filterValue t = Some t' →
  Forall (λ leaf, nameContains toLowerCase filterValue (termName leaf) = true)
         (termLeaves t').
Proof.
  revert t'. induction t as [id name parent c IH] using term_induction.
  intros t'. rewrite filtered_unfold.
  destruct (omap (filteredBy filterValue) c) as [|k ks] eqn:Ec.
  - rewrite orb_false_r. destruct (nameContains _ _ _) eqn:Hn; [|done].
    intros [= <-]. cbn [termLeaves]. by constructor.
  - rewrite orb_true_r. intros [= <-].
    change (termLeaves (Term id name parent (k :: ks)))
      with (flat_map termLeaves (k :: ks)).
    rewrite <- Ec. clear Ec. induction IH as [|x l Hx _ IHl]; [constructor|].
    rewrite omap_cons. destruct (filteredBy filterValue x) as [x'|]; [|done].
    cbn [flat_map]. apply Forall_app. split; [by apply Hx|done].
Qed.


Lemma filtered_again filterValue t t' :
  filteredBy filterValue t = Some t' → filteredBy filterValue t' = Some t'.
Proof.
  revert t'. induction t as [id name parent c IH] using term_induction.
  intros t'. rewrite filtered_unfold.
  destruct (_ || _) eqn:Hk; [|done]. intros [= <-]. rewrite filtered_unfold.
  assert (Hfix : omap (filteredBy filterValue) (omap (filteredBy filterValue) c)
                 = omap (filteredBy filterValue) c).
  { apply omap_fixed. apply Forall_forall. intros x' Hx'.
    apply list_elem_of_omap in Hx' as (x & Hx & Hfx).
    rewrite Forall_forall in IH. by apply (IH x Hx). }
  by rewrite Hfix, Hk.
Qed.

Lemma height_filtered filterValue t t' :
  filteredBy filterValue t = Some t' → (height t' ≤ height t)%nat.
Proof.
  revert t'. induction t as [id name parent c IH] using term_induction.
  intros t'. rewrite filtered_unfold.
  destruct (_ || _); [|done]. intros [= <-]. cbn [height].
  apply le_n_S. induction IH as [|x l Hx _ IHl]; [done|].
  rewrite omap_cons, fmap_cons. cbn [foldr].
  destruct (filteredBy filterValue x) as [x'|].
  - rewrite fmap_cons. cbn [foldr]. specialize (Hx x' eq_refl). lia.
  - lia.
Qed.

Lemma resultCount_nodes (forest : list term) :
  getResultCount forest = length (flat_map termNodes forest).
Proof.
  unfold getResultCount.
  assert (Hone : ∀ t, resultCountOf t = length (termNodes t)).
  { intros t. induction t as [id name parent c IH] using term_induction.
    cbn [resultCountOf termNodes length]. f_equal.
    induction IH as [|x l Hx _ IHl]; [done|].
    cbn [List.map flat_map]. by rewrite length_app, <- Hx, <- IHl. }
  induction forest as [|t r IH]; [done|].
  cbn [List.map flat_map]. by rewrite length_app, <- Hone, <- IH.
Qed.

Lemma matchTree_nodes filterValue t t' :
  matchTree toLowerCase filterValue t = Some t' →
  termNodes t' `sublist_of` termNodes t.
Proof.
  unfold matchTree. destruct (String.eqb EmptyString filterValue).
  - by intros [= <-].
  - apply termNodes_filtered.
Qed.

(** X17.  The count that [setFilter] speaks is the number of terms, at
    every depth, of the trees it stores, and it never exceeds the
    number of terms of the available tree. *)
Theorem setFilter_counts_terms (availableTermsTree : list term)
    (state : filterState) (value : string) :
  (setFilter toLowerCase availableTermsTree state value).2
  = length (flat_map termNodes
              (filteredTermsTree
                 (setFilter toLowerCase availableTermsTree state value).1))
  ∧ ((setFilter toLowerCase availableTermsTree state value).2
     ≤ getResultCount availableTermsTree)%nat.
Proof.
  unfold setFilter. cbn [fst snd filteredTermsTree].
  split; [apply resultCount_nodes|]. rewrite !resultCount_nodes.
  apply sublist_length.
  induction availableTermsTree as [|t r IH]; [done|].
  rewrite omap_cons. cbn [flat_map].
  destruct (matchTree toLowerCase (filterValue state) t) as [t'|] eqn:E.
  - cbn [flat_map]. apply sublist_app; [by eapply matchTree_nodes|done].
  - by apply sublist_inserts_l.
Qed.

(** X18.  [setFilter] filters by the filter value of the state, not by
    the value of the event: the tree rendered after an event is the
    available tree filtered by the value before it, and after the
    first event, whatever was typed, it is the whole tree. *)
Theorem setFilter_lags_one_event (availableTermsTree : list term)
    (state : filterState) (value : string) :
  value ≠ EmptyString →
  renderedTerms availableTermsTree
    (setFilter toLowerCase availableTermsTree state value).1
  = omap (matchTree toLowerCase (filterValue state)) availableTermsTree
  ∧ (filterValue state = EmptyString →
     renderedTerms availableTermsTree
       (setFilter toLowerCase availableTermsTree state value).1
     = availableTermsTree).
Proof.
  intros Hv. unfold renderedTerms, setFilter. cbn [fst filterValue filteredTermsTree].
  destruct (String.eqb_spec EmptyString value) as [<-|_]; [done|]. cbn [negb].
  split; [done|]. intros ->. apply omap_fixed, Forall_forall. by intros t _.
Qed.

End FilteredFacts.

(** ** The term selector: the matcher on the store *)

Section MatcherFacts.

Import TermSelector TermTree.

Variable toLowerCase : string → string.

(** What a call of the matcher returns, in terms of the tree. *)
Lemma matcher_result filterValue (h : heap) t l fuel :
  filterValue ≠ EmptyString →
  represents h t l →
  (height t ≤ fuel)%nat →
  ∃ r h',
    getFilterMatcher toLowerCase filterValue fuel l h = Ok (r, h')
    ∧ match filtered toLowerCase filterValue t with
      | Some t' => ∃ l', r = VRef l' ∧ represents h' t' l'
      | None => r = VFalse
      end.
Proof.
  intros Hfv Hrep Hfuel.
  destruct (matchTerms_spec toLowerCase filterValue h t Hfv fuel h l Hfuel
              (reflexivity h) Hrep) as (r & h' & Hrun & Hsub & Hleaves & _).
  exists r, h'. split; [exact Hrun|]. unfold leaves in Hleaves.
  destruct (filtered toLowerCase filterValue t) as [t'|]; [|done].
  destruct Hleaves as (l' & -> & _ & Hr). exists l'. split; [done|]. by apply Hr.
Qed.

(** X19.  The tree that the matcher returns is cut out of the original:
    its terms are terms of the original, in the same order, and in the
    name of every term of it that has no children left the filter
    value occurs, both taken in lower case. *)
Theorem getFilterMatcher_result_is_sound (filterValue : string) (h h' : heap)
    (t : term) (l l' : loc) (fuel : nat) :
  filterValue ≠ EmptyString →
  represents h t l →
  (height t ≤ fuel)%nat →
  getFilterMatcher toLowerCase filterValue fuel l h = Ok (VRef l', h') →
  ∃ t', represents h' t' l'
        ∧ termNodes t' `sublist_of` termNodes t
        ∧ Forall (λ leaf, occursIn (toLowerCase filterValue)
                                   (toLowerCase (termName leaf)))
                 (termLeaves t').
Proof.
  intros Hfv Hrep Hfuel Hrun.
  destruct (matcher_result filterValue h t l fuel Hfv Hrep Hfuel)
    as (r & h0 & Hrun' & Hres).
  rewrite Hrun in Hrun'. injection Hrun' as <- <-.
  destruct (filtered toLowerCase filterValue t) as [t'|] eqn:E; [|done].
  destruct Hres as (l0 & [= <-] & Hr). exists t'. split; [done|].
  split; [by eapply termNodes_filtered|].
  eapply Forall_impl; [by eapply termLeaves_filtered|]. cbv beta.
  intros leaf Hleaf. by apply nameContains_occurs.
Qed.


(** X21.  Filtering is idempotent: the matcher, called again with the
    same filter value on the tree it returned, returns that tree. *)
Theorem getFilterMatcher_twice (filterValue : string) (h h' : heap)
    (t : term) (l l' : loc) (fuel : nat) :
  filterValue ≠ EmptyString →
  represents h t l →
  (height t ≤ fuel)%nat →
  getFilterMatcher toLowerCase filterValue fuel l h = Ok (VRef l', h') →
  ∃ t' l'' h'',
    represents h' t' l'
    ∧ getFilterMatcher toLowerCase filterValue fuel l' h' = Ok (VRef l'', h'')
    ∧ represents h'' t' l''.
Proof.
  intros Hfv Hrep Hfuel Hrun.
  destruct (matcher_result filterValue h t l fuel Hfv Hrep Hfuel)
    as (r & h0 & Hrun' & Hres).
  rewrite Hrun in Hrun'. injection Hrun' as <- <-.
  destruct (filtered toLowerCase filterValue t) as [t'|] eqn:E; [|done].
  destruct Hres as (l0 & [= <-] & Hr).
  assert (Hh : (height t' ≤ fuel)%nat).
  { pose proof (height_filtered toLowerCase filterValue t t' E). lia. }
  destruct (matcher_result filterValue h' t' l' fuel Hfv Hr Hh)
    as (r2 & h'' & Hrun2 & Hres2).
  rewrite (filtered_again toLowerCase filterValue t t' E) in Hres2.
  destruct Hres2 as (l'' & -> & Hr2). by exists t', l'', h''.
Qed.

End MatcherFacts.

(** ** Unit values *)

Section UnitFacts.

Import UnitValues.

Variable isValueNumeric : string → bool.
Variable toLowerCase : string → string.
Variable number : Type.
Variable parseFloat : string → option number.

Lemma alphanumeric_char (c : ascii) :
  alphanumeric c = true →
  isWord c = true ∧ isSymbol c = false ∧ Ascii.eqb c " " = false
  ∧ Ascii.eqb c "." = false.
Proof.
  destruct c as [[] [] [] [] [] [] [] []]; vm_compute; intros H;
    repeat split; congruence.
Qed.

Lemma numberChar_no_space (c : ascii) :
  isNumberChar c = true → is_space c = false.
Proof.
  destruct c as [[] [] [] [] [] [] [] []]; vm_compute; congruence.
Qed.

Lemma lastChar_alphanumeric (s : string) (c : ascii) :
  Forall (λ c, alphanumeric c = true) (String.list_ascii_of_string s) →
  lastChar s = Some c → alphanumeric c = true.
Proof.
  induction s as [|a r IH]; [done|].
  cbn [String.list_ascii_of_string]. intros H. inversion_clear H as [|? ? Ha Hr].
  destruct r as [|b r']; [intros [= <-]; exact Ha|].
  change (lastChar (String a (String b r'))) with (lastChar (String b r')).
  apply IH, Hr.
Qed.

Lemma hasSpace_alphanumeric (s : string) :
  Forall (λ c, alphanumeric c = true) (String.list_ascii_of_string s) →
  hasSpace s = false.
Proof.
  induction s as [|a r IH]; [done|].
  cbn [String.list_ascii_of_string hasSpace]. intros H.
  inversion_clear H as [|? ? Ha Hr].
  destruct (alphanumeric_char a Ha) as (_ & _ & -> & _). by apply IH.
Qed.

Lemma hasDotLetter_alphanumeric (s : string) :
  Forall (λ c, alphanumeric c = true) (String.list_ascii_of_string s) →
  hasDotLetter s = false.
Proof.
  induction s as [|a r IH]; [done|].
  cbn [String.list_ascii_of_string]. intros H.
  inversion_clear H as [|? ? Ha Hr].
  change (hasDotLetter (String a r))
    with ((Ascii.eqb a "."
           && match r with String d _ => isLetter d | EmptyString => false end)
          || hasDotLetter r).
  destruct (alphanumeric_char a Ha) as (_ & _ & _ & ->). by apply IH.
Qed.

Lemma twoDotsHere_alphanumeric (s : string) :
  Forall (λ c, alphanumeric c = true) (String.list_ascii_of_string s) →
  twoDotsHere s = false.
Proof.
  destruct s as [|a [|b r]]; [done..|].
  cbn [String.list_ascii_of_string]. intros H.
  inversion_clear H as [|? ? _ Hr]. inversion_clear Hr as [|? ? Hb _].
  unfold twoDotsHere.
  destruct (alphanumeric_char b Hb) as (_ & _ & _ & ->).
  by rewrite andb_false_r.
Qed.

Lemma hasTwoDots_alphanumeric (s : string) :
  Forall (λ c, alphanumeric c = true) (String.list_ascii_of_string s) →
  hasTwoDots s = false.
Proof.
  induction s as [|a r IH]; [done|]. intros H.
  change (hasTwoDots (String a r))
    with (twoDotsHere (String a r) || hasTwoDots r).
  rewrite (twoDotsHere_alphanumeric _ H).
  cbn [String.list_ascii_of_string] in H. inversion_clear H as [|? ? _ Hr].
  by apply IH.
Qed.

(** X22 (isValidNumericUnitValue): a value made of letters and digits
    only, which does not start with a zero followed by a digit, is
    accepted, whatever [isValueNumeric] says of it: so is the empty
    string, and so is a value without any digit. *)
Theorem isValidNumericUnitValue_accepts_alphanumerics (value : string) :
  Forall (λ c, alphanumeric c = true) (String.list_ascii_of_string value) →
  startsWithZeroDigit value = false →
  isValidNumericUnitValue isValueNumeric value = true.
Proof.
  intros H Hz. unfold isValidNumericUnitValue.
  rewrite (hasSpace_alphanumeric _ H), Hz.
  assert (endsWithSymbol value = false) as ->.
  { unfold endsWithSymbol. destruct (lastChar value) as [c|] eqn:E; [|done].
    by destruct (alphanumeric_char c (lastChar_alphanumeric _ _ H E))
      as (_ & -> & _). }
  destruct (isValueNumeric value); [done|].
  assert (startsWithNonWord value = false) as ->.
  { destruct value as [|a r]; [done|].
    cbn [String.list_ascii_of_string] in H. inversion_clear H as [|? ? Ha _].
    unfold startsWithNonWord.
    by destruct (alphanumeric_char a Ha) as (-> & _). }
  cbn [andb].
  by rewrite (hasDotLetter_alphanumeric _ H), (hasTwoDots_alphanumeric _ H).
Qed.

Lemma trimStart_length (s : string) :
  (String.length (trimStart s) ≤ String.length s)%nat.
Proof.
  induction s as [|c r IH]; [done|]. cbn [trimStart].
  destruct (is_space c); cbn [String.length]; lia.
Qed.

Lemma trimEnd_length (s : string) :
  (String.length (trimEnd s) ≤ String.length s)%nat.
Proof.
  induction s as [|c r IH]; [done|].
  change (trimEnd (String c r))
    with (match trimEnd r with
          | EmptyString =>
              if is_space c then EmptyString else String c EmptyString
          | r' => String c r'
          end).
  destruct (trimEnd r) as [|d r'].
  - destruct (is_space c); cbn [String.length]; lia.
  - cbn [String.length] in *. lia.
Qed.

Lemma trim_fixed (u : string) :
  trim u = u → trimStart u = u ∧ trimEnd u = u.
Proof.
  unfold trim. intros H.
  assert (trimStart u = u) as Hs.
  { destruct u as [|c r]; [done|]. cbn [trimStart] in *.
    destruct (is_space c); [|done].
    pose proof (trimEnd_length (trimStart r)) as H1.
    pose proof (trimStart_length r) as H2.
    rewrite H in H1. cbn [String.length] in H1. lia. }
  split; [done|]. by rewrite Hs in H.
Qed.

Lemma trimEnd_append (v u : string) :
  trimEnd u ≠ EmptyString → trimEnd (v +:+ u) = v +:+ trimEnd u.
Proof.
  intros Hu. induction v as [|c r IH]; [done|].
  change (String c r +:+ u) with (String c (r +:+ u)).
  change (trimEnd (String c (r +:+ u)))
    with (match trimEnd (r +:+ u) with
          | EmptyString =>
              if is_space c then EmptyString else String c EmptyString
          | r' => String c r'
          end).
  rewrite IH.
  change (String c r +:+ trimEnd u) with (String c (r +:+ trimEnd u)).
  destruct (r +:+ trimEnd u) as [|d w] eqn:E; [|done].
  destruct r; [|done]. by destruct Hu.
Qed.

Lemma trimStart_append (v u : string) :
  Forall (λ c, isNumberChar c = true) (String.list_ascii_of_string v) →
  trimStart u = u → trimStart (v +:+ u) = v +:+ u.
Proof.
  destruct v as [|c r]; [done|]. cbn [String.list_ascii_of_string].
  intros H _. inversion_clear H as [|? ? Hc _].
  change (String c r +:+ u) with (String c (r +:+ u)). cbn [trimStart].
  by rewrite (numberChar_no_space c Hc).
Qed.

Lemma dropWhile_append (v u : string) :
  Forall (λ c, isNumberChar c = true) (String.list_ascii_of_string v) →
  dropWhile isNumberChar (v +:+ u) = dropWhile isNumberChar u.
Proof.
  induction v as [|c r IH]; [done|]. cbn [String.list_ascii_of_string].
  intros H. inversion_clear H as [|? ? Hc Hr].
  change (String c r +:+ u) with (String c (r +:+ u)). cbn [dropWhile].
  rewrite Hc. by apply IH.
Qed.

Lemma dropWhile_space (s : string) : dropWhile is_space s = trimStart s.
Proof.
  induction s as [|c r IH]; [done|]. cbn [dropWhile trimStart].
  by rewrite IH.
Qed.

Lemma parseUnitValue_joined (v u : string) :
  Forall (λ c, isNumberChar c = true) (String.list_ascii_of_string v) →
  u ≠ EmptyString →
  trim u = u →
  dropWhile isNumberChar u = u →
  takeWhile (λ c, negb (is_line_terminator c)) u = u →
  (parseUnitValue toLowerCase number parseFloat (Some (v +:+ u))).2
  = Some (toLowerCase u).
Proof.
  intros Hv Hne Htrim Hnum Hline.
  destruct (trim_fixed u Htrim) as [Hs He].
  unfold parseUnitValue, matchUnit. cbn [snd]. unfold trim.
  rewrite (trimStart_append v u Hv Hs).
  rewrite trimEnd_append by (by rewrite He). rewrite He.
  by rewrite (dropWhile_append v u Hv), Hnum, dropWhile_space, Hs, Hline.
Qed.

(** X23 (getParsedValue, createUnitValue, parseUnitValue): a value made
    of digits, dots and signs and a unit are joined and split again
    into the same unit, in lower case: provided the unit is not empty,
    has no white space at either end, does not start with a digit, a
    dot or a sign, and holds no line break.  [createUnitValue] joins
    the two when the value is numeric, and then [parseUnitValue] gives
    the unit back. *)
Theorem unit_survives_joining (v u : string) :
  Forall (λ c, isNumberChar c = true) (String.list_ascii_of_string v) →
  u ≠ EmptyString →
  trim u = u →
  dropWhile isNumberChar u = u →
  takeWhile (λ c, negb (is_line_terminator c)) u = u →
  (getParsedValue toLowerCase number parseFloat v u).2 = Some (toLowerCase u)
  ∧ (isValueNumeric v = true →
     (parseUnitValue toLowerCase number parseFloat
        (Some (createUnitValue isValueNumeric v u))).2
     = Some (toLowerCase u)).
Proof.
  intros Hv Hne Htrim Hnum Hline.
  pose proof (parseUnitValue_joined v u Hv Hne Htrim Hnum Hline) as H.
  unfold getParsedValue, createUnitValue.
  destruct u as [|c r]; [done|]. cbn [truthy negb orb].
  split; [exact H|]. by intros ->.
Qed.

End UnitFacts.

(** ** The properties at sample inputs *)

Lemma applyToAllSuccessors_keeps_leaves_at_strong_em :
  applyToAllSuccessors Sample.strongAndEm unwrapIfBare
  = Ok [Text "a"; Element "em" [] [Text "b"]]
  ∧ Reference.leavesOf [Text "a"; Element "em" [] [Text "b"]]
    = Reference.leavesOf Sample.strongAndEm.
Proof.
  assert (applyToAllSuccessors Sample.strongAndEm unwrapIfBare
          = Ok [Text "a"; Element "em" [] [Text "b"]]) as H by reflexivity.
  split; [exact H|].
  exact (applyToAllSuccessors_keeps_leaves _ _ _ H).
Defined.

Lemma filterInlineHTML_returns_iff_at_paragraph :
  returns (filterInlineHTML "<p>x</p>" false).
Proof.
  apply (proj2 (filterInlineHTML_returns_iff "<p>x</p>" false)).
  repeat constructor. by exists [].
Defined.

Lemma pasteHandler_throws_only_inline_at_data_url :
  TypeError "values.split is not a function"
  = TypeError "values.split is not a function"
  ∧ ∃ html, routeOf Sample.dataUrlPaste = ToInline html.
Proof.
  apply (pasteHandler_throws_only_inline Sample.dataUrlPaste).
  by vm_compute.
Defined.

Lemma grammar_route_iff_at_paragraph :
  routeOf Sample.delimitedPaste
  = ToGrammar "<!-- wp:paragraph --><p>Hi</p><!-- /wp:paragraph -->".
Proof.
  apply (proj2 (grammar_route_iff Sample.delimitedPaste _)).
  split; [discriminate|]. split; [by vm_compute|].
  apply indexOf_occurs. by vm_compute.
Defined.

Lemma block_route_keeps_mode_at_blank_paste :
  AUTO = default AUTO (opt_mode Demo.blankPaste) ∧ AUTO ≠ INLINE.
Proof.
  apply (block_route_keeps_mode Demo.blankPaste AUTO [PieceHTML "<p>x</p>"]).
  by vm_compute.
Defined.

Lemma markdownStep_inline_iff_at_hello :
  (markdownStep "" "hello world" AUTO).2 = INLINE
  ∧ (markdownStep "" "hello world" BLOCKS).2 = BLOCKS.
Proof.
  destruct (markdownStep_inline_iff "" "hello world") as [Hauto Hother].
  split.
  - apply Hauto. split; [discriminate|]. split; [by left|].
    split; [apply indexOf_absent_iff; reflexivity|].
    split; [apply strip_prefix_None; reflexivity|].
    by exists "hello world</p>".
  - apply Hother. discriminate.
Defined.

Lemma finishBlocks_inline_iff_at_paragraph :
  (∃ s, finishBlocks AUTO " x " [Demo.paragraphX] = InlineString s)
  ∧ finishBlocks AUTO " " [Demo.paragraphX] = BlockList [Demo.paragraphX].
Proof.
  split.
  - apply (proj1 (finishBlocks_inline_iff AUTO " x " [Demo.paragraphX])).
    split; [reflexivity|]. split; [discriminate|].
    split; [apply indexOf_absent_iff; reflexivity|].
    by exists Demo.paragraphX.
  - apply (proj2 (finishBlocks_inline_iff AUTO " " [Demo.paragraphX])).
    intros s. by vm_compute.
Defined.

Lemma htmlToBlocks_one_per_element_at_text :
  htmlToBlocks "hello" getRawTransformations = [].
Proof.
  apply (proj2 (htmlToBlocks_one_per_element "hello" getRawTransformations)).
  by repeat constructor.
Defined.

Lemma htmlToBlocks_transform_decides_at_paragraph :
  htmlToBlocks "<p>x</p>" [Sample.dropEverything] !! 0%nat = Some None
  ∧ compact (htmlToBlocks "<p>x</p>" [Sample.dropEverything]) = [].
Proof.
  destruct (htmlToBlocks_transform_decides "<p>x</p>" [Sample.dropEverything]
              0%nat (Element "p" [] [Text "x"]) Sample.dropEverything
              (λ _, None)) as [Hat Hnone].
  - by vm_compute.
  - reflexivity.
  - reflexivity.
  - split; [exact Hat|]. apply Hnone; [by vm_compute|reflexivity].
Defined.

Lemma stripWrappers_keeps_plain_text_at_hello :
  stripWrappers "hello world" = "hello world".
Proof.
  apply stripWrappers_keeps_plain_text.
  apply indexOf_absent_iff. reflexivity.
Defined.

Lemma getStylesEntry_throws_iff_at_word :
  ∃ e, getStylesEntry " bold " = Throw e.
Proof.
  apply (proj2 (proj1 (getStylesEntry_throws_iff " bold "))).
  split; [apply indexOf_absent_iff; reflexivity|discriminate].
Defined.

Lemma treeHasSelection_iff_at_fruit :
  TermTree.treeHasSelection [11] Demo.fruit = true.
Proof.
  apply (proj2 (treeHasSelection_iff [11] Demo.fruit)).
  exists (11, "Apple"). split.
  - apply list_elem_of_further, list_elem_of_here.
  - apply list_elem_of_here.
Defined.

Lemma onChange_toggles_at_three :
  TermTree.onChange (TermTree.onChange [1; 2] 3) 3 = [1; 2].
Proof.
  apply (proj2 (proj2 (onChange_toggles [1; 2] 3))).
  intros H. apply elem_of_cons in H as [H|H]; [discriminate|].
  apply elem_of_cons in H as [H|H]; [discriminate|].
  by apply elem_of_nil in H.
Defined.

Lemma setFilter_lags_one_event_at_fruit :
  TermTree.renderedTerms [Demo.fruit]
    (TermTree.setFilter Demo.toLowerCase [Demo.fruit] Sample.nothingTyped "pear").1
  = [Demo.fruit].
Proof.
  apply (proj2 (setFilter_lags_one_event Demo.toLowerCase
                  [Demo.fruit] Sample.nothingTyped "pear" ltac:(discriminate))).
  reflexivity.
Defined.

Lemma fruit_in_store :
  TermSelector.represents Demo.fruitStore Demo.fruit 1%positive.
Proof.
  exists 2%positive, [3%positive]. split; [reflexivity|]. split; [reflexivity|].
  split; [|exact I]. exists 4%positive, []. by repeat split.
Qed.

Lemma getFilterMatcher_result_is_sound_at_fruit :
  ∃ l' h' t',
    TermSelector.getFilterMatcher Demo.toLowerCase "APP" 2 1%positive Demo.fruitStore
    = Ok (TermSelector.VRef l', h')
    ∧ TermSelector.represents h' t' l'
    ∧ TermTree.termNodes t' `sublist_of` TermTree.termNodes Demo.fruit
    ∧ Forall (λ leaf, occursIn (Demo.toLowerCase "APP")
                               (Demo.toLowerCase (TermSelector.termName leaf)))
             (TermTree.termLeaves t').
Proof.
  destruct (TermSelector.getFilterMatcher Demo.toLowerCase "APP" 2 1%positive
              Demo.fruitStore) as [[[|l'] h']|e] eqn:E.
  - by vm_compute in E.
  - destruct (getFilterMatcher_result_is_sound Demo.toLowerCase "APP"
                Demo.fruitStore h' Demo.fruit 1%positive l' 2)
      as (t' & Hrep & Hsub & Hleaves).
    + discriminate.
    + exact fruit_in_store.
    + simpl. lia.
    + exact E.
    + by exists l', h', t'.
  - by vm_compute in E.
Defined.


Lemma getFilterMatcher_twice_at_fruit :
  ∃ l' h' t' l'' h'',
    TermSelector.getFilterMatcher Demo.toLowerCase "app" 2 1%positive Demo.fruitStore
    = Ok (TermSelector.VRef l', h')
    ∧ TermSelector.represents h' t' l'
    ∧ TermSelector.getFilterMatcher Demo.toLowerCase "app" 2 l' h'
      = Ok (TermSelector.VRef l'', h'')
    ∧ TermSelector.represents h'' t' l''.
Proof.
  destruct (TermSelector.getFilterMatcher Demo.toLowerCase "app" 2 1%positive
              Demo.fruitStore) as [[[|l'] h']|e] eqn:E.
  - by vm_compute in E.
  - destruct (getFilterMatcher_twice Demo.toLowerCase "app"
                Demo.fruitStore h' Demo.fruit 1%positive l' 2)
      as (t' & l'' & h'' & Hrep & Hrun & Hrep').
    + discriminate.
    + exact fruit_in_store.
    + simpl. lia.
    + exact E.
    + by exists l', h', t', l'', h''.
  - by vm_compute in E.
Defined.

Lemma isValidNumericUnitValue_accepts_alphanumerics_at_px :
  UnitValues.isValidNumericUnitValue (λ _, false) "px" = true.
Proof.
  apply isValidNumericUnitValue_accepts_alphanumerics.
  - by repeat constructor.
  - reflexivity.
Defined.

Lemma unit_survives_joining_at_px :
  (UnitValues.getParsedValue Demo.toLowerCase Z (λ _, None) "12.5" "PX").2
  = Some "px"
  ∧ (UnitValues.parseUnitValue Demo.toLowerCase Z (λ _, None)
       (Some (UnitValues.createUnitValue (λ _, true) "12.5" "PX"))).2
    = Some "px".
Proof.
  destruct (unit_survives_joining (λ _, true) Demo.toLowerCase Z (λ _, None)
              "12.5" "PX") as [Hparsed Hcreated].
  - by repeat constructor.
  - discriminate.
  - reflexivity.
  - reflexivity.
  - reflexivity.
  - split; [exact Hparsed|]. by apply Hcreated.
Defined.
